(** * Unified Audio Graph & Utilities (src/services/audioUtils.ts)

    A shallow embedding of the audio utilities of the visualizer:
    the offline mixer [mixAudioBuffers], the PCM encoder [audioBufferToWav],
    the logarithmic banding of [AudioVisualizer.drawBars], and the source
    router [UnifiedAudioGraph] with its derived features.

    Conventions.
    - A JavaScript number that the program only ever uses as an integer
      (frame counts, channel counts, sample rates, byte offsets, bin indices)
      is a [Z]; double arithmetic is exact on integers below 2^53.
    - A JavaScript number that is genuinely fractional (a sample, a duration)
      is a binary64 [float], the kernel's primitive IEEE 754 doubles, so that
      rounding is the rounding of the program.
    - Conversions to the fixed-width integers of DataView and of WebIDL
      (ToInt32, ToUint32, ToUint16, ToInt16) have their wrap-around written out. *)

From Stdlib Require Import ZArith Lia Floats QArith Qminmax Lqa.
From stdpp Require Import base option list gmap sets relations strings.

Local Open Scope Z_scope.

(* ===================================================================== *)
(** * Part I. Definitions *)
(* ===================================================================== *)

(** ** JavaScript numbers *)

(** Truncation of a double toward zero, as an integer; [None] for NaN and
    the infinities. *)
Definition truncate (x : float) : option Z :=
  match Prim2SF x with
  | S754_zero _ => Some 0
  | S754_infinity _ => None
  | S754_nan => None
  | S754_finite s m e =>
      let a := if 0 <=? e then Z.pos m * 2 ^ e else Z.pos m / 2 ^ (- e) in
      Some (if s then - a else a)
  end.

(** ECMAScript ToUint32 and ToInt32 ([x | 0]): NaN and infinities give 0,
    anything else is truncated and reduced modulo 2^32. *)
Definition wrapU (bits : Z) (n : Z) : Z := n mod 2 ^ bits.

Definition wrapS (bits : Z) (n : Z) : Z :=
  let u := wrapU bits n in
  if u <? 2 ^ (bits - 1) then u else u - 2 ^ bits.

Definition ToUint32 (x : float) : Z :=
  match truncate x with Some n => wrapU 32 n | None => 0 end.

Definition ToInt32 (x : float) : Z :=
  match truncate x with Some n => wrapS 32 n | None => 0 end.

(** The double nearest to an integer (exact below 2^53). *)
Definition Z2F (n : Z) : float :=
  if n <? 0 then (- of_uint63 (Uint63.of_Z (- n)))%float
  else of_uint63 (Uint63.of_Z n).

(** [Math.max] and [Math.min] on doubles: NaN is contagious and +0 is
    larger than -0. *)
Definition Math_max (a b : float) : float :=
  if is_nan a || is_nan b then nan
  else if (a <? b)%float then b
  else if (b <? a)%float then a
  else if get_sign a then b else a.

Definition Math_min (a b : float) : float :=
  if is_nan a || is_nan b then nan
  else if (a <? b)%float then a
  else if (b <? a)%float then b
  else if get_sign a then a else b.

(** ** AudioBuffer *)

(** The platform's decoded buffer: [getChannelData ch] is the Float32Array of
    channel [ch]; reading it at frame [i] gives a double. *)
Record AudioBuffer := {
  numberOfChannels : Z;
  length : Z;
  sampleRate : Z;
  getChannelData : Z -> Z -> float
}.

(** [AudioBuffer.duration]: the platform computes it as length / sampleRate,
    a double. *)
Definition duration (b : AudioBuffer) : float :=
  (Z2F (length b) / Z2F (sampleRate b))%float.

(** A buffer given by its channels as lists of samples; a read outside a
    typed array is [undefined], which [Math.min] turns into NaN. *)
Definition sampleAt (chans : list (list float)) (ch i : Z) : float :=
  match chans !! Z.to_nat ch with
  | Some c => match c !! Z.to_nat i with Some x => x | None => nan end
  | None => nan
  end.

Definition bufferOf (rate : Z) (frames : Z) (chans : list (list float)) : AudioBuffer :=
  {| numberOfChannels := Z.of_nat (List.length chans);
     length := frames;
     sampleRate := rate;
     getChannelData := sampleAt chans |}.

(** ** DataView over a zero-filled ArrayBuffer *)

(** Bytes are integers in [0, 256). *)
Definition byte := Z.

(** The [n] little-endian bytes of the unsigned integer [v]. *)
Fixpoint le_bytes (n : nat) (v : Z) : list byte :=
  match n with
  | O => []
  | S n' => v mod 256 :: le_bytes n' (v / 256)
  end.

(** Writing [bs] at byte offset [at_]; DataView throws a RangeError when the
    write does not fit, which is [None] here. *)
Definition store (view : list byte) (at_ : Z) (bs : list byte) : option (list byte) :=
  if (0 <=? at_) && (at_ + Z.of_nat (List.length bs) <=? Z.of_nat (List.length view))
  then Some (take (Z.to_nat at_) view ++ bs ++ drop (Z.to_nat at_ + List.length bs) view)
  else None.

(** [view.setInt16(at, v, true)]: the value is taken modulo 2^16. *)
Definition setInt16 (view : list byte) (at_ : Z) (v : Z) : option (list byte) :=
  store view at_ (le_bytes 2 (wrapU 16 v)).

(** ** audioBufferToWav *)

(** The writer state of the header: the view and the cursor [pos]. *)
Record writer := { view : list byte; pos : Z }.

Definition setUint16 (data : Z) (w : writer) : option writer :=
  v ← store (view w) (pos w) (le_bytes 2 (wrapU 16 data));
  Some {| view := v; pos := pos w + 2 |}.

Definition setUint32 (data : Z) (w : writer) : option writer :=
  v ← store (view w) (pos w) (le_bytes 4 (wrapU 32 data));
  Some {| view := v; pos := pos w + 4 |}.

(** Lines 107-108: clamp, then scale and convert with [| 0].  The condition
    of the conditional is [0.5 + sample < 0], as JavaScript parses it. *)
Definition clampSample (x : float) : float :=
  Math_max (-1)%float (Math_min 1%float x).

Definition quantize (x : float) : Z :=
  let sample := clampSample x in
  ToInt32 (if (0.5 + sample <? 0)%float then sample * 32768 else sample * 32767)%float.

(** Lines 86-98. *)
Definition writeHeader (buffer : AudioBuffer) (length_ : Z) (w : writer) : option writer :=
  let numOfChan := numberOfChannels buffer in
  w ← setUint32 0x46464952 w;
  w ← setUint32 (length_ - 8) w;
  w ← setUint32 0x45564157 w;
  w ← setUint32 0x20746d66 w;
  w ← setUint32 16 w;
  w ← setUint16 1 w;
  w ← setUint16 numOfChan w;
  w ← setUint32 (sampleRate buffer) w;
  w ← setUint32 (sampleRate buffer * 2 * numOfChan) w;
  w ← setUint16 (numOfChan * 2) w;
  w ← setUint16 16 w;
  w ← setUint32 0x61746164 w;
  setUint32 (length_ - pos w - 4) w.

(** Lines 106-111: the channels of frame [i], from channel [ch] on. *)
Fixpoint writeFrame (buffer : AudioBuffer) (i : Z) (n : nat) (ch : Z)
    (st : list byte * Z) : option (list byte * Z) :=
  match n with
  | O => Some st
  | S n' =>
      let '(v, offset) := st in
      v' ← setInt16 v (44 + offset) (quantize (getChannelData buffer ch i));
      writeFrame buffer i n' (ch + 1) (v', offset + 2)
  end.

(** Lines 104-113: the frames from [i] on. *)
Fixpoint writeFrames (buffer : AudioBuffer) (n : nat) (i : Z)
    (st : list byte * Z) : option (list byte * Z) :=
  match n with
  | O => Some st
  | S n' =>
      st' ← writeFrame buffer i (Z.to_nat (numberOfChannels buffer)) 0 st;
      writeFrames buffer n' (i + 1) st'
  end.

(** The bytes of the Blob; [None] would be an exception thrown by a write.
    The allocation of line 70 is granted here: [audioBufferToWavWithin]
    below is the function on a platform whose allocation has a limit. *)
Definition audioBufferToWav (buffer : AudioBuffer) : option (list byte) :=
  let numOfChan := numberOfChannels buffer in
  let length_ := length buffer * numOfChan * 2 + 44 in
  let bufferArray := replicate (Z.to_nat length_) 0 in
  w ← writeHeader buffer length_ {| view := bufferArray; pos := 0 |};
  st ← writeFrames buffer (Z.to_nat (length buffer)) 0 (view w, 0);
  Some (fst st).


(** ** mixAudioBuffers *)

(** What the program hands to the platform: an OfflineAudioContext with its
    three constructor arguments, and the buffers played into its destination
    from time 0. *)
Record OfflineAudioContext := {
  ctxChannels : Z;
  ctxLength : Z;
  ctxSampleRate : Z;
  ctxSources : list AudioBuffer
}.

(** [new OfflineAudioContext(numberOfChannels, length, sampleRate)].  The
    length is a WebIDL [unsigned long]: the double passed is converted with
    ToUint32.  A channel count or a length of zero is a NotSupportedError. *)
Definition newOfflineAudioContext (channels : Z) (len : float) (rate : Z)
    : option OfflineAudioContext :=
  let n := ToUint32 len in
  if (channels =? 0) || (n =? 0) then None
  else Some {| ctxChannels := channels; ctxLength := n;
               ctxSampleRate := rate; ctxSources := [] |}.

Definition startSource (b : AudioBuffer) (c : OfflineAudioContext) : OfflineAudioContext :=
  {| ctxChannels := ctxChannels c; ctxLength := ctxLength c;
     ctxSampleRate := ctxSampleRate c; ctxSources := ctxSources c ++ [b] |}.

(** [startRendering()]: the rendered buffer has the channel count, the length
    and the sample rate the context was constructed with; its samples are the
    platform's mix-down of the sources, [engine]. *)
Definition startRendering (engine : OfflineAudioContext -> Z -> Z -> float)
    (c : OfflineAudioContext) : AudioBuffer :=
  {| numberOfChannels := ctxChannels c;
     length := ctxLength c;
     sampleRate := ctxSampleRate c;
     getChannelData := engine c |}.

(** Lines 43-65. *)
Definition mixAudioBuffers (engine : OfflineAudioContext -> Z -> Z -> float)
    (buffer1 buffer2 : AudioBuffer) : option AudioBuffer :=
  let duration_ := Math_max (duration buffer1) (duration buffer2) in
  let sampleRate_ := Z.max (sampleRate buffer1) (sampleRate buffer2) in
  let numberOfChannels_ := Z.max (numberOfChannels buffer1) (numberOfChannels buffer2) in
  offlineCtx ← newOfflineAudioContext numberOfChannels_
                  (duration_ * Z2F sampleRate_)%float sampleRate_;
  let offlineCtx := startSource buffer1 offlineCtx in
  let offlineCtx := startSource buffer2 offlineCtx in
  Some (startRendering engine offlineCtx).

(** A mono buffer of [frames] frames at [rate] Hz. *)
Definition monoBuffer (rate frames : Z) (data : Z -> float) : AudioBuffer :=
  {| numberOfChannels := 1; length := frames; sampleRate := rate;
     getChannelData := fun _ => data |}.

(** ** Logarithmic banding of AudioVisualizer.drawBars *)

(** Binary search for the integer [n]-th root: the invariant is
    [lo ^ n <= x < hi ^ n]. *)
Fixpoint iroot_search (fuel : nat) (n x lo hi : Z) : Z :=
  match fuel with
  | O => lo
  | S fuel' =>
      if hi - lo <=? 1 then lo
      else
        let mid := (lo + hi) / 2 in
        if mid ^ n <=? x then iroot_search fuel' n x mid hi
        else iroot_search fuel' n x lo mid
  end.

(** The greatest [k >= 0] with [k ^ n <= x]. *)
Definition iroot (n x : Z) : Z :=
  let bits := Z.log2 x / n + 1 in
  iroot_search (Z.to_nat bits) n x 0 (2 ^ bits).

(** [Math.floor(Math.pow(base, num / den))], read on exact reals: the greatest
    integer [k] with [k ^ den <= base ^ num].  For the bar counts 64 and 512
    the quotient [num / den] is exact in binary, and over 2047 bins no power
    comes closer than 0.002 to an integer, so that a double-precision
    [Math.pow] has the same integer part. *)
Definition floorPow (base num den : Z) : Z := iroot den (base ^ num).

Definition minBin : Z := 1.

(** Lines 177, 178 and 181, for [numBars] bars over the bins up to [maxBin]. *)
Definition startBin (numBars maxBin i : Z) : Z :=
  minBin * floorPow (maxBin / minBin) i numBars.

Definition endBin (numBars maxBin i : Z) : Z :=
  minBin * floorPow (maxBin / minBin) (i + 1) numBars.

Definition safeEndBin (numBars maxBin i : Z) : Z :=
  Z.max (endBin numBars maxBin i) (startBin numBars maxBin i + 1).

(** [dataArray[j]] on a Uint8Array: [undefined] outside the array. *)
Definition readBin (dataArray : list Z) (j : Z) : option Z :=
  if j <? 0 then None else dataArray !! Z.to_nat j.

(** The result of scanning one span: the maximum found and the indices at
    which the array was read, in order. *)
Record scanned := { maxVal : Z; reads : list Z }.

(** Lines 183-185.  A comparison with [undefined] is false. *)
Fixpoint scanSpan (fuel : nat) (dataArray : list Z) (bound j : Z) (acc : scanned)
    : option scanned :=
  if (j <? bound) && (j <? Z.of_nat (List.length dataArray)) then
    match fuel with
    | O => None
    | S fuel' =>
        let acc' :=
          match readBin dataArray j with
          | Some v =>
              if maxVal acc <? v
              then {| maxVal := v; reads := reads acc ++ [j; j] |}
              else {| maxVal := maxVal acc; reads := reads acc ++ [j] |}
          | None => {| maxVal := maxVal acc; reads := reads acc ++ [j] |}
          end in
        scanSpan fuel' dataArray bound (j + 1) acc'
    end
  else Some acc.

(** The analyser of the constructor: fftSize 4096, hence 2048 bins. *)
Definition fftSize : Z := 4096.
Definition frequencyBinCount : Z := fftSize / 2.

(** The bar count of line 170. *)
Definition numBars : Z := 512.

(** A rectangle handed to [fillRect]; canvas coordinates are taken on exact
    rationals. *)
Record rect := { rx : Q; ry : Q; rw : Q; rh : Q }.

(** One iteration of the loop of lines 176-192: bar [i] of [bars] over the
    bins up to [binCount - 1], on a canvas [width] by [height]. *)
Definition drawBar (bars binCount : Z) (dataArray : list Z) (width height : Q) (i : Z)
    : option (rect * list Z) :=
  let barWidth := (width / inject_Z bars)%Q in
  let spacer := if Qlt_le_dec 2 barWidth then 1%Q else 0%Q in
  let maxBin := binCount - 1 in
  let start := startBin bars maxBin i in
  let safeEnd := safeEndBin bars maxBin i in
  s ← scanSpan (Z.to_nat (safeEnd - start)) dataArray safeEnd start
        {| maxVal := 0; reads := [] |};
  let barHeight := ((inject_Z (maxVal s) / 255) * height)%Q in
  let x := (inject_Z i * barWidth)%Q in
  let w := Qmax (1 # 2) (barWidth - spacer)%Q in
  Some ({| rx := x; ry := (height - barHeight)%Q; rw := w; rh := barHeight |}, reads s).

(** [drawBars] on the spectrum [dataArray] just fetched: the rectangles drawn
    and every index read, or nothing at all without a 2D context. *)
Definition drawBars (hasContext : bool) (dataArray : list Z) (width height : Q)
    : option (list (rect * list Z)) :=
  if hasContext
  then mapM (drawBar numBars frequencyBinCount dataArray width height) (seqZ 0 numBars)
  else Some [].

(** ** UnifiedAudioGraph: the source router *)

Inductive TrackKind := AudioTrack | VideoTrack.

Record MediaStreamTrack := { trackId : nat; kind : TrackKind }.

Record MediaStream := { streamId : nat; getTracks : list MediaStreamTrack }.

Definition isAudio (t : MediaStreamTrack) : bool :=
  match kind t with AudioTrack => true | VideoTrack => false end.

Definition getAudioTracks (s : MediaStream) : list MediaStreamTrack :=
  List.filter isAudio (getTracks s).

(** The nodes of the audio graph.  A source node is named by the stream or
    the media element it was created from. *)
Inductive AudioNode :=
  | MediaStreamSource (stream : nat)
  | MediaElementSource (element : nat)
  | Analyser
  | Destination.

Global Instance AudioNode_eq_dec : EqDecision AudioNode.
Proof. solve_decision. Defined.

Definition AudioNode_code (n : AudioNode) : nat + nat + bool :=
  match n with
  | MediaStreamSource s => inl (inl s)
  | MediaElementSource e => inl (inr e)
  | Analyser => inr true
  | Destination => inr false
  end.

Definition AudioNode_decode (c : nat + nat + bool) : AudioNode :=
  match c with
  | inl (inl s) => MediaStreamSource s
  | inl (inr e) => MediaElementSource e
  | inr true => Analyser
  | inr false => Destination
  end.

Global Program Instance AudioNode_countable : Countable AudioNode :=
  inj_countable' AudioNode_code AudioNode_decode _.
Next Obligation. by intros []. Qed.

(** The router's two fields, [source] and [activeStream], together with the
    platform state its calls act on: whether the context is suspended, the
    connections between nodes, the tracks that were stopped, and the media
    elements that already have a source node. *)
Record UnifiedAudioGraph := {
  source : option AudioNode;
  activeStream : option MediaStream;
  suspended : bool;
  connections : gset (AudioNode * AudioNode);
  stoppedTracks : gset nat;
  tappedElements : gset nat
}.

(** The graph of the constructor. *)
Definition newGraph : UnifiedAudioGraph :=
  {| source := None; activeStream := None; suspended := true;
     connections := ∅; stoppedTracks := ∅; tappedElements := ∅ |}.

Definition resume (g : UnifiedAudioGraph) : UnifiedAudioGraph :=
  if suspended g
  then {| source := source g; activeStream := activeStream g; suspended := false;
          connections := connections g; stoppedTracks := stoppedTracks g;
          tappedElements := tappedElements g |}
  else g.

(** [node.connect(target)] and [node.disconnect()], on the connection set. *)
Definition connectNode (n target : AudioNode) (E : gset (AudioNode * AudioNode))
    : gset (AudioNode * AudioNode) :=
  E ∪ {[ (n, target) ]}.

Definition disconnectNode (n : AudioNode) (E : gset (AudioNode * AudioNode))
    : gset (AudioNode * AudioNode) :=
  filter (λ e, e.1 ≠ n) E.

Definition stopAll (tracks : list MediaStreamTrack) (stopped : gset nat) : gset nat :=
  stopped ∪ list_to_set (trackId <$> tracks).

(** Lines 301-310. *)
Definition disconnect (g : UnifiedAudioGraph) : UnifiedAudioGraph :=
  let g1 :=
    match source g with
    | Some n =>
        {| source := None; activeStream := activeStream g; suspended := suspended g;
           connections := disconnectNode n (connections g);
           stoppedTracks := stoppedTracks g; tappedElements := tappedElements g |}
    | None => g
    end in
  match activeStream g1 with
  | Some s =>
      {| source := source g1; activeStream := None; suspended := suspended g1;
         connections := connections g1;
         stoppedTracks := stopAll (getTracks s) (stoppedTracks g1);
         tappedElements := tappedElements g1 |}
  | None => g1
  end.

(** What a capture request comes back with: the capability is missing, the
    promise rejects, or a stream is granted. *)
Inductive Capture :=
  | Unsupported
  | Rejected
  | Granted (stream : MediaStream).

(** [createMediaStreamSource] throws an InvalidStateError on a stream without
    an audio track. *)
Definition createMediaStreamSource (s : MediaStream) : option AudioNode :=
  match getAudioTracks s with
  | [] => None
  | _ :: _ => Some (MediaStreamSource (streamId s))
  end.

(** Lines 235-236 and 272-273: the source node is created from the stored
    stream and connected to the analyser; a throw leaves what was assigned
    before it. *)
Definition attachStream (stream : MediaStream) (g : UnifiedAudioGraph)
    : bool * UnifiedAudioGraph :=
  let g1 :=
    {| source := source g; activeStream := Some stream; suspended := suspended g;
       connections := connections g; stoppedTracks := stoppedTracks g;
       tappedElements := tappedElements g |} in
  match createMediaStreamSource stream with
  | None => (false, g1)
  | Some n =>
      (true,
       {| source := Some n; activeStream := Some stream; suspended := suspended g;
          connections := connectNode n Analyser (connections g);
          stoppedTracks := stoppedTracks g; tappedElements := tappedElements g |})
  end.

(** Lines 224-244. *)
Definition connectMicrophone (c : Capture) (g : UnifiedAudioGraph)
    : bool * UnifiedAudioGraph :=
  let g := resume g in
  let g := disconnect g in
  match c with
  | Unsupported => (false, g)
  | Rejected => (false, g)
  | Granted stream => attachStream stream g
  end.

(** Lines 247-287. *)
Definition connectSystemAudio (c : Capture) (g : UnifiedAudioGraph)
    : bool * UnifiedAudioGraph :=
  let g := resume g in
  let g := disconnect g in
  match c with
  | Unsupported => (false, g)
  | Rejected => (false, g)
  | Granted stream =>
      match getAudioTracks stream with
      | [] =>
          (false,
           {| source := source g; activeStream := activeStream g;
              suspended := suspended g; connections := connections g;
              stoppedTracks := stopAll (getTracks stream) (stoppedTracks g);
              tappedElements := tappedElements g |})
      | _ :: _ => attachStream stream g
      end
  end.

(** Lines 289-299.  [createMediaElementSource] throws when the element
    already has a source node; the catch block swallows it. *)
Definition connectElement (audioElement : nat) (g : UnifiedAudioGraph)
    : UnifiedAudioGraph :=
  let g := resume g in
  let g := disconnect g in
  if decide (audioElement ∈ tappedElements g) then g
  else
    let n := MediaElementSource audioElement in
    {| source := Some n; activeStream := activeStream g; suspended := suspended g;
       connections :=
         connectNode Analyser Destination (connectNode n Analyser (connections g));
       stoppedTracks := stoppedTracks g;
       tappedElements := tappedElements g ∪ {[ audioElement ]} |}.

(** The operations a caller can issue, each with what the platform answers.
    [perform] runs an operation to completion before the next one starts;
    calls that overlap across an await are the events of [react] below. *)
Inductive RouterOp :=
  | OpConnectMicrophone (c : Capture)
  | OpConnectSystemAudio (c : Capture)
  | OpConnectElement (audioElement : nat)
  | OpDisconnect.

Definition perform (g : UnifiedAudioGraph) (op : RouterOp) : UnifiedAudioGraph :=
  match op with
  | OpConnectMicrophone c => (connectMicrophone c g).2
  | OpConnectSystemAudio c => (connectSystemAudio c g).2
  | OpConnectElement e => connectElement e g
  | OpDisconnect => disconnect g
  end.

Definition performAll (ops : list RouterOp) (g : UnifiedAudioGraph) : UnifiedAudioGraph :=
  foldl perform g ops.

(** A node is audible when its signal reaches the destination along the
    connections. *)
Definition feeds (g : UnifiedAudioGraph) (a b : AudioNode) : Prop :=
  (a, b) ∈ connections g.

Definition audible (g : UnifiedAudioGraph) (n : AudioNode) : Prop :=
  rtc (feeds g) n Destination.

(** What a caller can observe of the router: the attached source and the
    stream it owns. *)
Definition routerState (g : UnifiedAudioGraph) : option AudioNode * option MediaStream :=
  (source g, activeStream g).

(** ** Derived features *)

(** Lines 326-335 on the spectrum [data] just fetched; a read outside the
    array makes the sum NaN, which is [None]. *)
Definition sumBins (data : list Z) (bins : list Z) : option Z :=
  foldl (λ sum i, s ← sum; v ← readBin data i; Some (s + v)) (Some 0) bins.

Definition getBassEnergy (data : list Z) : option Q :=
  sum ← sumBins data (seqZ 1 8);
  Some (inject_Z sum / 8)%Q.

(** The feature as the specification words it: the bins whose centre
    frequency [i * sampleRate / transformSize] lies in [10, 90] Hz, their
    mean, scaled by 255 into [0, 1]. *)
Definition bassBins (rate transformSize binCount : Z) : list Z :=
  List.filter (λ i, (10 * transformSize <=? i * rate) && (i * rate <=? 90 * transformSize))
    (seqZ 0 binCount).

Definition bassEnergy_spec (rate transformSize : Z) (data : list Z) : option Q :=
  let bins := bassBins rate transformSize (Z.of_nat (List.length data)) in
  sum ← sumBins data bins;
  Some (inject_Z sum / inject_Z (Z.of_nat (List.length bins)) / 255)%Q.

(** ** The container, as a reader sees it *)

(** The value of little-endian bytes, and the DataView getters. *)
Fixpoint le_value (bs : list byte) : Z :=
  match bs with
  | [] => 0
  | b :: rest => b + 256 * le_value rest
  end.

Definition getUint16 (bytes : list byte) (at_ : nat) : Z :=
  le_value (take 2 (drop at_ bytes)).

Definition getUint32 (bytes : list byte) (at_ : nat) : Z :=
  le_value (take 4 (drop at_ bytes)).

(** The 44 header bytes and the sample bytes that [audioBufferToWav] lays
    down, in the order of their offsets. *)
Definition headerBytes (buffer : AudioBuffer) : list byte :=
  let numOfChan := numberOfChannels buffer in
  let length_ := length buffer * numOfChan * 2 + 44 in
  le_bytes 4 (wrapU 32 0x46464952) ++
  le_bytes 4 (wrapU 32 (length_ - 8)) ++
  le_bytes 4 (wrapU 32 0x45564157) ++
  le_bytes 4 (wrapU 32 0x20746d66) ++
  le_bytes 4 (wrapU 32 16) ++
  le_bytes 2 (wrapU 16 1) ++
  le_bytes 2 (wrapU 16 numOfChan) ++
  le_bytes 4 (wrapU 32 (sampleRate buffer)) ++
  le_bytes 4 (wrapU 32 (sampleRate buffer * 2 * numOfChan)) ++
  le_bytes 2 (wrapU 16 (numOfChan * 2)) ++
  le_bytes 2 (wrapU 16 16) ++
  le_bytes 4 (wrapU 32 0x61746164) ++
  le_bytes 4 (wrapU 32 (length_ - 40 - 4)).

Fixpoint frameBytes (buffer : AudioBuffer) (i : Z) (n : nat) (ch : Z) : list byte :=
  match n with
  | O => []
  | S n' =>
      le_bytes 2 (wrapU 16 (quantize (getChannelData buffer ch i)))
      ++ frameBytes buffer i n' (ch + 1)
  end.

Fixpoint framesBytes (buffer : AudioBuffer) (n : nat) (i : Z) : list byte :=
  match n with
  | O => []
  | S n' =>
      frameBytes buffer i (Z.to_nat (numberOfChannels buffer)) 0
      ++ framesBytes buffer n' (i + 1)
  end.

Definition dataBytes (buffer : AudioBuffer) : list byte :=
  framesBytes buffer (Z.to_nat (length buffer)) 0.

(** The invariant of sequential writing into a zero-filled buffer of
    [total] bytes: [written] so far, zeros after, and the cursor at the end
    of what is written. *)
Definition filled (total : nat) (written : list byte) (v : list byte) : Prop :=
  v = written ++ replicate (total - List.length written) 0.

Definition wrote (total : nat) (written : list byte) (w : writer) : Prop :=
  filled total written (view w) /\ pos w = Z.of_nat (List.length written).

(** ** The quantizer, as the specification words it *)

(** The greatest integer below a double. *)
Definition floorZ (x : float) : option Z :=
  match Prim2SF x with
  | S754_zero _ => Some 0
  | S754_infinity _ => None
  | S754_nan => None
  | S754_finite s m e =>
      if 0 <=? e then Some (if s then - (Z.pos m * 2 ^ e) else Z.pos m * 2 ^ e)
      else if s then Some (- ((Z.pos m + 2 ^ (- e) - 1) / 2 ^ (- e)))
      else Some (Z.pos m / 2 ^ (- e))
  end.

(** [Math.round]: the nearest integer, a tie going up. *)
Definition Math_round (x : float) : option Z := floorZ (x + 0.5)%float.

(** "q = sample < 0 ? round(sample * 32768) : round(sample * 32767)", after
    the clamp. *)
Definition quantize_spec (x : float) : option Z :=
  let sample := clampSample x in
  if (sample <? 0)%float then Math_round (sample * 32768)%float
  else Math_round (sample * 32767)%float.

(** The buffers of the encoding scenarios: two channels, two frames, the
    samples [[1.0, -1.0], [0.0, 0.5]] read as the two frames, or as the two
    channels. *)
Definition scenarioByFrame (rate : Z) : AudioBuffer :=
  bufferOf rate 2 [[1; 0]; [-1; 0.5]]%float.

Definition scenarioByChannel (rate : Z) : AudioBuffer :=
  bufferOf rate 2 [[1; -1]; [0; 0.5]]%float.

(** ** Router states used in the scenarios *)

Definition micStream : MediaStream :=
  {| streamId := 1; getTracks := [ {| trackId := 10; kind := AudioTrack |} ] |}.

(** A display capture granted without "share audio": one video track. *)
Definition videoOnlyStream : MediaStream :=
  {| streamId := 2; getTracks := [ {| trackId := 20; kind := VideoTrack |} ] |}.

Definition elementActive : UnifiedAudioGraph := connectElement 7 newGraph.

Definition microphoneActive : UnifiedAudioGraph :=
  (connectMicrophone (Granted micStream) newGraph).2.

(** The router is idle when nothing is attached and no stream is owned. *)
Definition idle (g : UnifiedAudioGraph) : Prop := routerState g = (None, None).

(** The analyser feeds the destination, and the router's own source is not
    the analyser. *)
Definition wired (g : UnifiedAudioGraph) : Prop :=
  (Analyser, Destination) ∈ connections g /\ source g ≠ Some Analyser.

(** Nothing feeds the destination. *)
Definition muted (g : UnifiedAudioGraph) : Prop :=
  forall n, (n, Destination) ∉ connections g.

Definition isConnectElement (op : RouterOp) : Prop :=
  match op with OpConnectElement _ => True | _ => False end.

(** ** Banding, as the specification words it *)

(** Bin [b] lies in the clamped span of bar [i]. *)
Definition covers (bars maxBin i b : Z) : Prop :=
  startBin bars maxBin i <= b < safeEndBin bars maxBin i.

(** Bar 0 starts at bin 1; the starts and the upper bounds of the spans do
    not decrease with the bar index; every bin from 1 to [maxBin - 1] lies in
    some span; no span reaches [maxBin]. *)
Definition banding (bars maxBin : Z) : Prop :=
  startBin bars maxBin 0 = 1
  /\ (forall i, 0 <= i -> i + 1 < bars ->
        startBin bars maxBin i <= startBin bars maxBin (i + 1)
        /\ safeEndBin bars maxBin i <= safeEndBin bars maxBin (i + 1))
  /\ (forall b, 1 <= b < maxBin -> exists i, 0 <= i < bars /\ covers bars maxBin i b)
  /\ (forall i, 0 <= i < bars -> ~ covers bars maxBin i maxBin).

(** The indices [js] all lie in the span of bar [i], below the scan bound,
    and inside the array. *)
Definition readsWithin (bars binCount : Z) (dataArray : list Z) (i : Z) (js : list Z)
    : Prop :=
  Forall (fun j =>
            startBin bars (binCount - 1) i <= j
            /\ j < Z.min (safeEndBin bars (binCount - 1) i) (Z.of_nat (List.length dataArray))
            /\ 0 <= j < Z.of_nat (List.length dataArray)) js.

(** Two spectra: every bin at full scale, and bin 8 alone at full scale. *)
Definition fullScale : list Z := replicate 2048 255.

Definition onlyBin8 : list Z := <[ 8%nat := 255 ]> (replicate 2048 0).

(** ** Further code of the services *)

(** [DataView.getInt16(at, true)], the signed reading of two bytes. *)
Definition getInt16 (bytes : list byte) (at_ : nat) : Z :=
  wrapS 16 (getUint16 bytes at_).

(** Line 70: [new ArrayBuffer(length)] throws a RangeError when the platform
    does not allocate [length] bytes; [maxByteLength] is what it allocates at
    most.  The rest of the function runs on the allocated buffer. *)
Definition audioBufferToWavWithin (maxByteLength : Z) (buffer : AudioBuffer)
    : option (list byte) :=
  let numOfChan := numberOfChannels buffer in
  let length_ := length buffer * numOfChan * 2 + 44 in
  if maxByteLength <? length_ then None else audioBufferToWav buffer.


(** ** The connects across their await *)

(** What a pending capture request settles to. *)
Inductive Answer :=
  | Denied
  | Allowed (stream : MediaStream).

(** [connectMicrophone] up to its await (lines 225-231): without the
    capability it has returned false, [Some false]; with it the request is
    pending, [None]. *)
Definition connectMicrophoneBegin (supported : bool) (g : UnifiedAudioGraph)
    : option bool * UnifiedAudioGraph :=
  let g := resume g in
  let g := disconnect g in
  if supported then (None, g) else (Some false, g).

(** [connectMicrophone] from its await on (lines 233-243), in the state the
    router is in when the request settles. *)
Definition connectMicrophoneSettle (a : Answer) (g : UnifiedAudioGraph)
    : bool * UnifiedAudioGraph :=
  match a with
  | Denied => (false, g)
  | Allowed stream => attachStream stream g
  end.

(** [connectSystemAudio] up to its await (lines 248-254). *)
Definition connectSystemAudioBegin (supported : bool) (g : UnifiedAudioGraph)
    : option bool * UnifiedAudioGraph :=
  let g := resume g in
  let g := disconnect g in
  if supported then (None, g) else (Some false, g).

(** [connectSystemAudio] from its await on (lines 256-286). *)
Definition connectSystemAudioSettle (a : Answer) (g : UnifiedAudioGraph)
    : bool * UnifiedAudioGraph :=
  match a with
  | Denied => (false, g)
  | Allowed stream =>
      match getAudioTracks stream with
      | [] =>
          (false,
           {| source := source g; activeStream := activeStream g;
              suspended := suspended g; connections := connections g;
              stoppedTracks := stopAll (getTracks stream) (stoppedTracks g);
              tappedElements := tappedElements g |})
      | _ :: _ => attachStream stream g
      end
  end.

(** What happens to the router, one uninterrupted piece of code at a time. *)
Inductive RouterEvent :=
  | MicrophoneBegins (supported : bool)
  | MicrophoneSettles (a : Answer)
  | SystemAudioBegins (supported : bool)
  | SystemAudioSettles (a : Answer)
  | ElementConnects (audioElement : nat)
  | Disconnects.

Definition react (g : UnifiedAudioGraph) (ev : RouterEvent) : UnifiedAudioGraph :=
  match ev with
  | MicrophoneBegins supported => (connectMicrophoneBegin supported g).2
  | MicrophoneSettles a => (connectMicrophoneSettle a g).2
  | SystemAudioBegins supported => (connectSystemAudioBegin supported g).2
  | SystemAudioSettles a => (connectSystemAudioSettle a g).2
  | ElementConnects e => connectElement e g
  | Disconnects => disconnect g
  end.

Definition reactAll (evs : list RouterEvent) (g : UnifiedAudioGraph) : UnifiedAudioGraph :=
  foldl react g evs.

(** The events of an operation that nothing interrupts. *)
Definition answerOf (c : Capture) : list Answer :=
  match c with
  | Unsupported => []
  | Rejected => [Denied]
  | Granted stream => [Allowed stream]
  end.

Definition supportedBy (c : Capture) : bool :=
  match c with Unsupported => false | _ => true end.

Definition eventsOf (op : RouterOp) : list RouterEvent :=
  match op with
  | OpConnectMicrophone c =>
      MicrophoneBegins (supportedBy c) :: (MicrophoneSettles <$> answerOf c)
  | OpConnectSystemAudio c =>
      SystemAudioBegins (supportedBy c) :: (SystemAudioSettles <$> answerOf c)
  | OpConnectElement e => [ElementConnects e]
  | OpDisconnect => [Disconnects]
  end.

(** The events of calls that do not overlap. *)
Definition unoverlapped (ops : list RouterOp) : list RouterEvent :=
  ops ≫= eventsOf.

(** An operation that brings a capture stream into the router. *)
Definition grants (op : RouterOp) (s : MediaStream) : Prop :=
  op = OpConnectMicrophone (Granted s) \/ op = OpConnectSystemAudio (Granted s).

(** A stream is accounted for when the router owns it or every one of its
    tracks has been stopped. *)
Definition accountedFor (g : UnifiedAudioGraph) (s : MediaStream) : Prop :=
  activeStream g = Some s
  \/ forall t, t ∈ getTracks s -> trackId t ∈ stoppedTracks g.

(** Every connection is the analyser's way out, or the router's source
    feeding the analyser. *)
Definition exclusive (g : UnifiedAudioGraph) : Prop :=
  forall a b, (a, b) ∈ connections g ->
    (a = Analyser /\ b = Destination) \/ (source g = Some a /\ b = Analyser).

(** Lines 317-324 on the spectrum [data] just fetched.  The quotient is
    taken on exact rationals (it is exact in doubles for the 2048 bins of the
    analyser); for an empty array it is 0 / 0, NaN, which is [None]. *)
Definition getAverageFrequency (data : list Z) : option Q :=
  sum ← sumBins data (seqZ 0 (Z.of_nat (List.length data)));
  if decide (List.length data = 0%nat) then None
  else Some (inject_Z sum / inject_Z (Z.of_nat (List.length data)))%Q.

(** The sum of an array of magnitudes. *)
Definition sumOf (data : list Z) : Z := foldr Z.add 0 data.

Definition comma : Ascii.ascii := Ascii.ascii_of_nat 44.

(** [result.split(',')]: the fields between the commas, at least one. *)
Fixpoint split_comma (s : string) : list string :=
  match s with
  | EmptyString => [EmptyString]
  | String c rest =>
      if Ascii.eqb c comma then EmptyString :: split_comma rest
      else
        match split_comma rest with
        | field :: fields => String c field :: fields
        | [] => [String c EmptyString]
        end
  end.

(** Lines 30-41, on the data URL [result] the reader loaded: field 1 of the
    split, [undefined] when there is none. *)
Definition fileToBase64 (result : string) : option string :=
  split_comma result !! 1%nat.

Fixpoint commaFree (s : string) : bool :=
  match s with
  | EmptyString => true
  | String c rest => negb (Ascii.eqb c comma) && commaFree rest
  end.

(** The visualizer of one track: its source node, whether its context is
    suspended, and the connections of its own graph. *)
Record AudioVisualizer := {
  vSource : option AudioNode;
  vSuspended : bool;
  vConnections : gset (AudioNode * AudioNode)
}.

Definition newVisualizer : AudioVisualizer :=
  {| vSource := None; vSuspended := true; vConnections := ∅ |}.

(** Lines 144-155.  [tapped] are the media elements that already have a
    source node, in whatever context; for these createMediaElementSource
    throws and the catch block swallows it.  Nothing is disconnected
    first. *)
Definition visualizerConnect (audioElement : nat) (v : AudioVisualizer) (tapped : gset nat)
    : AudioVisualizer * gset nat :=
  let v := {| vSource := vSource v; vSuspended := false;
              vConnections := vConnections v |} in
  if decide (audioElement ∈ tapped) then (v, tapped)
  else
    let n := MediaElementSource audioElement in
    ({| vSource := Some n; vSuspended := false;
        vConnections :=
          connectNode Analyser Destination (connectNode n Analyser (vConnections v)) |},
     tapped ∪ {[ audioElement ]}).

(* ===================================================================== *)
(** * Part II. Properties *)
(* ===================================================================== *)

(** ** The DataView writer *)

Section Writer.

Implicit Types (pre rest bs v : list byte) (w : writer).

Lemma le_bytes_length n x : List.length (le_bytes n x) = n.
Proof. revert x; induction n as [|n IH]; intros x; simpl; [done|by rewrite IH]. Qed.

(** A write right after a prefix replaces the start of what follows. *)
Lemma store_after_prefix pre rest bs :
  (List.length bs <= List.length rest)%nat ->
  store (pre ++ rest) (Z.of_nat (List.length pre)) bs
  = Some (pre ++ bs ++ drop (List.length bs) rest).
Proof.
  intros Hfit. unfold store.
  rewrite length_app, Nat2Z.id.
  replace ((0 <=? Z.of_nat (List.length pre)) &&
           (Z.of_nat (List.length pre) + Z.of_nat (List.length bs)
            <=? Z.of_nat (List.length pre + List.length rest)))
    with true by (symmetry; apply andb_true_intro; split; apply Z.leb_le; lia).
  rewrite take_app_length, drop_app_add'; [done|reflexivity].
Qed.

Lemma store_length v at_ bs v' :
  store v at_ bs = Some v' -> List.length v' = List.length v.
Proof.
  unfold store. case_match eqn:Hc; [|done].
  apply andb_prop in Hc as [H0 H1]. apply Z.leb_le in H0, H1.
  intros [= <-].
  rewrite !length_app, length_take, length_drop. lia.
Qed.

Lemma filled_store total written v bs :
  filled total written v ->
  (List.length written + List.length bs <= total)%nat ->
  exists v', store v (Z.of_nat (List.length written)) bs = Some v'
             /\ filled total (written ++ bs) v'.
Proof.
  intros -> Hfit. eexists; split.
  - apply store_after_prefix. rewrite length_replicate. lia.
  - unfold filled. rewrite drop_replicate, length_app, <- app_assoc.
    do 3 f_equal. lia.
Qed.

End Writer.

(** ** The layout of the encoded container *)

Section Layout.

Lemma setUint32_wrote total written w d :
  wrote total written w ->
  (List.length written + 4 <= total)%nat ->
  exists w', setUint32 d w = Some w'
             /\ wrote total (written ++ le_bytes 4 (wrapU 32 d)) w'.
Proof.
  intros [Hf Hp] Hfit. unfold setUint32. rewrite Hp.
  destruct (filled_store total written (view w) (le_bytes 4 (wrapU 32 d)) Hf)
    as (v' & -> & Hf'); [rewrite le_bytes_length; lia|].
  eexists; split; [reflexivity|]. split; [exact Hf'|].
  cbn [pos]. rewrite length_app, le_bytes_length. lia.
Qed.

Lemma setUint16_wrote total written w d :
  wrote total written w ->
  (List.length written + 2 <= total)%nat ->
  exists w', setUint16 d w = Some w'
             /\ wrote total (written ++ le_bytes 2 (wrapU 16 d)) w'.
Proof.
  intros [Hf Hp] Hfit. unfold setUint16. rewrite Hp.
  destruct (filled_store total written (view w) (le_bytes 2 (wrapU 16 d)) Hf)
    as (v' & -> & Hf'); [rewrite le_bytes_length; lia|].
  eexists; split; [reflexivity|]. split; [exact Hf'|].
  cbn [pos]. rewrite length_app, le_bytes_length. lia.
Qed.

Ltac written_length :=
  repeat rewrite length_app; repeat rewrite le_bytes_length; simpl List.length; lia.

Ltac write_step lem :=
  match goal with
  | Hw : wrote ?total ?written ?w |- context [?set ?d ?w] =>
      let w' := fresh "w" in
      let E := fresh "E" in
      let Hw' := fresh "Hw" in
      destruct (lem total written w d Hw) as (w' & E & Hw');
      [written_length | rewrite E; cbn [mbind option_bind]; clear E Hw]
  end.

Lemma headerBytes_length buffer : List.length (headerBytes buffer) = 44%nat.
Proof. unfold headerBytes. repeat rewrite length_app, le_bytes_length. reflexivity. Qed.

Lemma writeHeader_wrote buffer total w :
  wrote total [] w ->
  (44 <= total)%nat ->
  exists w',
    writeHeader buffer (length buffer * numberOfChannels buffer * 2 + 44) w = Some w'
    /\ wrote total (headerBytes buffer) w'.
Proof.
  intros Hw Htotal. unfold writeHeader.
  write_step setUint32_wrote. write_step setUint32_wrote.
  write_step setUint32_wrote. write_step setUint32_wrote.
  write_step setUint32_wrote. write_step setUint16_wrote.
  write_step setUint16_wrote. write_step setUint32_wrote.
  write_step setUint32_wrote. write_step setUint16_wrote.
  write_step setUint16_wrote. write_step setUint32_wrote.
  match goal with Hw : wrote _ _ ?w |- _ => pose proof Hw as [_ Hpos] end.
  rewrite Hpos.
  match goal with |- context [Z.of_nat ?n] =>
    replace (Z.of_nat n) with 40 by (symmetry; written_length) end.
  write_step setUint32_wrote.
  eexists; split; [reflexivity|].
  match goal with Hw : wrote _ _ _ |- _ => revert Hw end.
  unfold headerBytes. rewrite app_nil_l, <- !app_assoc. tauto.
Qed.

Lemma frameBytes_length buffer i n ch :
  List.length (frameBytes buffer i n ch) = (2 * n)%nat.
Proof.
  revert ch; induction n as [|n IH]; intros ch; [done|].
  cbn [frameBytes]. rewrite length_app, le_bytes_length, IH. lia.
Qed.

Lemma framesBytes_length buffer n i :
  List.length (framesBytes buffer n i)
  = (n * (2 * Z.to_nat (numberOfChannels buffer)))%nat.
Proof.
  revert i; induction n as [|n IH]; intros i; [done|].
  cbn [framesBytes]. rewrite length_app, frameBytes_length, IH. lia.
Qed.

Lemma writeFrame_wrote buffer i total n :
  forall ch written v offset,
    filled total written v ->
    Z.of_nat (List.length written) = 44 + offset ->
    (List.length written + 2 * n <= total)%nat ->
    exists v',
      writeFrame buffer i n ch (v, offset) = Some (v', offset + 2 * Z.of_nat n)
      /\ filled total (written ++ frameBytes buffer i n ch) v'.
Proof.
  induction n as [|n IH]; intros ch written v offset Hf Hoff Hfit.
  - exists v. cbn [writeFrame frameBytes]. rewrite app_nil_r. split; [|done].
    do 2 f_equal. lia.
  - cbn [writeFrame frameBytes]. unfold setInt16. rewrite <- Hoff.
    set (bs := le_bytes 2 (wrapU 16 (quantize (getChannelData buffer ch i)))).
    destruct (filled_store total written v bs Hf) as (v1 & -> & Hf1).
    { subst bs. rewrite le_bytes_length. lia. }
    cbn [mbind option_bind].
    destruct (IH (ch + 1) (written ++ bs) v1 (offset + 2) Hf1) as (v' & E & Hf').
    { subst bs. rewrite length_app, le_bytes_length. lia. }
    { subst bs. rewrite length_app, le_bytes_length. lia. }
    exists v'. rewrite E, <- app_assoc in *. split; [|done].
    do 2 f_equal. lia.
Qed.

Lemma writeFrames_wrote buffer total n :
  forall i written v offset,
    filled total written v ->
    Z.of_nat (List.length written) = 44 + offset ->
    (List.length written + n * (2 * Z.to_nat (numberOfChannels buffer)) <= total)%nat ->
    exists v' offset',
      writeFrames buffer n i (v, offset) = Some (v', offset')
      /\ filled total (written ++ framesBytes buffer n i) v'.
Proof.
  induction n as [|n IH]; intros i written v offset Hf Hoff Hfit.
  - exists v, offset. cbn [writeFrames framesBytes]. by rewrite app_nil_r.
  - cbn [writeFrames framesBytes].
    destruct (writeFrame_wrote buffer i total (Z.to_nat (numberOfChannels buffer))
                0 written v offset Hf Hoff) as (v1 & -> & Hf1); [lia|].
    cbn [mbind option_bind].
    destruct (IH (i + 1) _ v1 (offset + 2 * Z.of_nat (Z.to_nat (numberOfChannels buffer)))
                Hf1) as (v' & offset' & E & Hf').
    { rewrite length_app, frameBytes_length. lia. }
    { rewrite length_app, frameBytes_length. lia. }
    exists v', offset'. by rewrite E, <- app_assoc in *.
Qed.

(** The encoder never throws, and its output is the header followed by
    the samples, frame by frame and channel by channel. *)
Theorem audioBufferToWav_layout buffer :
  0 <= length buffer ->
  0 <= numberOfChannels buffer ->
  audioBufferToWav buffer = Some (headerBytes buffer ++ dataBytes buffer).
Proof.
  intros HN HC. unfold audioBufferToWav.
  set (total := Z.to_nat (length buffer * numberOfChannels buffer * 2 + 44)).
  assert (Htotal : total
                   = (44 + Z.to_nat (length buffer)
                           * (2 * Z.to_nat (numberOfChannels buffer)))%nat)
    by (subst total; nia).
  destruct (writeHeader_wrote buffer total {| view := replicate total 0; pos := 0 |})
    as (w & -> & Hf & Hpos).
  { split; [|done]. unfold filled. cbn. by rewrite Nat.sub_0_r. }
  { lia. }
  cbn [mbind option_bind].
  destruct (writeFrames_wrote buffer total (Z.to_nat (length buffer)) 0
              (headerBytes buffer) (view w) 0 Hf) as (v' & offset' & -> & Hf').
  { rewrite headerBytes_length. lia. }
  { rewrite headerBytes_length. lia. }
  cbn [mbind option_bind fst]. f_equal.
  unfold filled in Hf'. rewrite Hf'. unfold dataBytes.
  rewrite length_app, headerBytes_length, framesBytes_length, Htotal, Nat.sub_diag.
  cbn [replicate]. by rewrite app_nil_r.
Qed.


End Layout.

(** ** The header fields *)

Section Header.

Lemma le_value_le_bytes n v :
  le_value (le_bytes n v) = v mod 256 ^ Z.of_nat n.
Proof.
  revert v; induction n as [|n IH]; intros v.
  - cbn. by rewrite Z.mod_1_r.
  - cbn [le_bytes le_value]. rewrite IH, Nat2Z.inj_succ, Z.pow_succ_r by lia.
    rewrite Z.rem_mul_r by lia. reflexivity.
Qed.

Lemma le_value_wrapU32 v : le_value (le_bytes 4 (wrapU 32 v)) = wrapU 32 v.
Proof.
  rewrite le_value_le_bytes. unfold wrapU.
  change (256 ^ Z.of_nat 4) with (2 ^ 32). apply Z.mod_mod. lia.
Qed.

Lemma le_value_wrapU16 v : le_value (le_bytes 2 (wrapU 16 v)) = wrapU 16 v.
Proof.
  rewrite le_value_le_bytes. unfold wrapU.
  change (256 ^ Z.of_nat 2) with (2 ^ 16). apply Z.mod_mod. lia.
Qed.


Variable buffer : AudioBuffer.
Variable data : list byte.

Let bytes := headerBytes buffer ++ data.
Let total := length buffer * numberOfChannels buffer * 2 + 44.

(** What each header field holds, whatever the buffer: the value the
    program passes, reduced to the width of the field. *)
Lemma header_tags :
  take 4 bytes = [0x52; 0x49; 0x46; 0x46]
  /\ take 4 (drop 8 bytes) = [0x57; 0x41; 0x56; 0x45]
  /\ take 4 (drop 12 bytes) = [0x66; 0x6d; 0x74; 0x20]
  /\ take 4 (drop 36 bytes) = [0x64; 0x61; 0x74; 0x61].
Proof. repeat split. Qed.

Lemma header_fields :
  getUint32 bytes 4 = wrapU 32 (total - 8)
  /\ getUint32 bytes 16 = 16
  /\ getUint16 bytes 20 = 1
  /\ getUint16 bytes 22 = wrapU 16 (numberOfChannels buffer)
  /\ getUint32 bytes 24 = wrapU 32 (sampleRate buffer)
  /\ getUint32 bytes 28 = wrapU 32 (sampleRate buffer * 2 * numberOfChannels buffer)
  /\ getUint16 bytes 32 = wrapU 16 (numberOfChannels buffer * 2)
  /\ getUint16 bytes 34 = 16
  /\ getUint32 bytes 40 = wrapU 32 (total - 44).
Proof.
  subst bytes total. unfold getUint32, getUint16, headerBytes.
  cbn [app le_bytes drop take].
  repeat split;
    first [ apply le_value_wrapU32 | apply le_value_wrapU16 | idtac ].
  replace (length buffer * numberOfChannels buffer * 2 + 44 - 44)
    with (length buffer * numberOfChannels buffer * 2 + 44 - 40 - 4) by lia.
  apply le_value_wrapU32.
Qed.

End Header.

(** ** Claims about the PCM encoder *)

(** The allocation is the only place where the encoder can throw. *)
Lemma audioBufferToWavWithin_granted maxByteLength buffer :
  length buffer * numberOfChannels buffer * 2 + 44 <= maxByteLength ->
  audioBufferToWavWithin maxByteLength buffer = audioBufferToWav buffer.
Proof.
  intros Hfit. unfold audioBufferToWavWithin.
  destruct (Z.ltb_spec maxByteLength (length buffer * numberOfChannels buffer * 2 + 44));
    [lia|done].
Qed.

Lemma audioBufferToWavWithin_refused maxByteLength buffer :
  maxByteLength < length buffer * numberOfChannels buffer * 2 + 44 ->
  audioBufferToWavWithin maxByteLength buffer = None.
Proof.
  intros Hbig. unfold audioBufferToWavWithin.
  destruct (Z.ltb_spec maxByteLength (length buffer * numberOfChannels buffer * 2 + 44));
    [done|lia].
Qed.



(** C6, as amended.  Encoding the 2-channel, 2-frame buffer whose frames are
    [1.0, -1.0] and [0.0, 0.5] produces eight data bytes in frame-interleaved
    order, the first six being FF 7F, 00 80, 00 00: the little-endian int16
    of 32767, -32768 and 0. *)
Theorem scenario_data_bytes (rate : Z) :
  exists b7 b8,
    drop 44 <$> audioBufferToWav (scenarioByFrame rate)
    = Some [0xFF; 0x7F; 0x00; 0x80; 0x00; 0x00; b7; b8].
Proof.
  rewrite audioBufferToWav_layout by (cbn; lia).
  cbn [fmap option_fmap option_map].
  rewrite (drop_app_length' _ _ 44 (eq_sym (headerBytes_length (scenarioByFrame rate)))).
  by eexists _, _.
Qed.

(** C6 as stated fails: the bytes 7F FF, 00 80, 00 00, 00 40 are not what the
    encoder produces, whether the samples are read frame by frame or channel
    by channel. *)
Lemma scenario_bytes_differ :
  drop 44 <$> audioBufferToWav (scenarioByFrame 44100)
  = Some [0xFF; 0x7F; 0x00; 0x80; 0x00; 0x00; 0xFF; 0x3F]
  /\ drop 44 <$> audioBufferToWav (scenarioByFrame 44100)
     <> Some [0x7F; 0xFF; 0x00; 0x80; 0x00; 0x00; 0x00; 0x40]
  /\ drop 44 <$> audioBufferToWav (scenarioByChannel 44100)
     <> Some [0x7F; 0xFF; 0x00; 0x80; 0x00; 0x00; 0x00; 0x40].
Proof. by vm_compute. Qed.

(** C1: the code at samples where it leaves the stated rule.  The clamp is
    there, but the condition of the conditional is [0.5 + sample < 0], so
    the factor 32768 applies below -0.5 only, and [| 0] truncates where the
    rule rounds. *)
Theorem quantize_departs_from_rule :
  quantize (-0.25) = -8191 /\ quantize_spec (-0.25) = Some (-8192)
  /\ quantize 0.5 = 16383 /\ quantize_spec 0.5 = Some 16384
  /\ quantize (-0.5) = -16383 /\ quantize_spec (-0.5) = Some (-16384)
  /\ quantize 1 = 32767 /\ quantize_spec 1 = Some 32767
  /\ quantize (-1) = -32768 /\ quantize_spec (-1) = Some (-32768)
  /\ quantize 3 = 32767 /\ quantize (-3) = -32768.
Proof. by vm_compute. Qed.

(** ** Claims about the offline mixer *)

Section Mixer.

Variable engine : OfflineAudioContext -> Z -> Z -> float.

(** The shape of every mix: the larger rate, the larger channel count, and
    as many frames as ToUint32 leaves of the larger duration times the
    rate. *)
Lemma mixAudioBuffers_shape buffer1 buffer2 mixed :
  mixAudioBuffers engine buffer1 buffer2 = Some mixed ->
  sampleRate mixed = Z.max (sampleRate buffer1) (sampleRate buffer2)
  /\ numberOfChannels mixed
     = Z.max (numberOfChannels buffer1) (numberOfChannels buffer2)
  /\ length mixed
     = ToUint32 (Math_max (duration buffer1) (duration buffer2)
                 * Z2F (Z.max (sampleRate buffer1) (sampleRate buffer2)))%float.
Proof.
  unfold mixAudioBuffers, newOfflineAudioContext.
  case_match; [done|]. cbn. by intros [= <-].
Qed.

(** One second of mono audio at 44100 Hz mixed with another gives one
    second at 44100 Hz. *)
Example mix_one_second data1 data2 :
  exists mixed,
    mixAudioBuffers engine (monoBuffer 44100 44100 data1) (monoBuffer 44100 44100 data2)
    = Some mixed
    /\ length mixed = 44100 /\ sampleRate mixed = 44100
    /\ numberOfChannels mixed = 1 /\ duration mixed = 1%float.
Proof. eexists; split; [reflexivity|]. by vm_compute. Qed.

(** C2: the code on two mono buffers of 15 frames at 44100 Hz.  The double
    15 / 44100 * 44100 is 14.999999999999998, the context is created with
    14 frames, and the mix is shorter than both inputs. *)
Theorem mix_loses_a_frame data1 data2 :
  let buffer1 := monoBuffer 44100 15 data1 in
  let buffer2 := monoBuffer 44100 15 data2 in
  exists mixed,
    mixAudioBuffers engine buffer1 buffer2 = Some mixed
    /\ sampleRate mixed = 44100
    /\ numberOfChannels mixed = 1
    /\ length mixed = 14
    /\ (duration mixed =? Math_max (duration buffer1) (duration buffer2))%float = false
    /\ (duration mixed <? Math_max (duration buffer1) (duration buffer2))%float = true.
Proof. eexists; split; [reflexivity|]. by vm_compute. Qed.

End Mixer.

(** ** The source router *)

Section Router.

Implicit Types (g : UnifiedAudioGraph) (c : Capture) (n : AudioNode).

Lemma resume_fields g :
  source (resume g) = source g
  /\ activeStream (resume g) = activeStream g
  /\ connections (resume g) = connections g
  /\ stoppedTracks (resume g) = stoppedTracks g
  /\ tappedElements (resume g) = tappedElements g.
Proof. unfold resume. by destruct (suspended g). Qed.

Lemma disconnect_idle g : idle (disconnect g).
Proof.
  unfold idle, routerState, disconnect.
  by destruct g as [[?|] [?|] ? ? ? ?].
Qed.

Lemma disconnect_resume g :
  routerState (disconnect (resume g)) = routerState (disconnect g)
  /\ connections (disconnect (resume g)) = connections (disconnect g)
  /\ stoppedTracks (disconnect (resume g)) = stoppedTracks (disconnect g)
  /\ tappedElements (disconnect (resume g)) = tappedElements (disconnect g).
Proof. unfold resume. by destruct (suspended g), g as [[?|] [?|] ? ? ? ?]. Qed.

(** [disconnect] is idempotent, and does nothing to an idle router. *)
Lemma disconnect_of_idle g : idle g -> disconnect g = g.
Proof.
  unfold idle, routerState.
  destruct g as [[?|] [?|] ? ? ? ?]; cbn; by intros [=].
Qed.

Lemma disconnect_idempotent g : disconnect (disconnect g) = disconnect g.
Proof. apply disconnect_of_idle, disconnect_idle. Qed.

(** The stream the router owned is stopped by [disconnect]. *)
Lemma disconnect_stops g s t :
  activeStream g = Some s -> t ∈ getTracks s ->
  trackId t ∈ stoppedTracks (disconnect g).
Proof.
  intros Hs Ht. unfold disconnect.
  destruct (source g); cbn; rewrite Hs; cbn; unfold stopAll;
    apply elem_of_union_r, elem_of_list_to_set, list_elem_of_fmap; eauto.
Qed.

Lemma attachStream_failure stream g g' :
  attachStream stream g = (false, g') ->
  getAudioTracks stream = [] /\ source g' = source g
  /\ connections g' = connections g /\ stoppedTracks g' = stoppedTracks g.
Proof.
  unfold attachStream, createMediaStreamSource.
  destruct (getAudioTracks stream); [|done]. by intros [= <-].
Qed.

Lemma attachStream_success stream g :
  getAudioTracks stream <> [] ->
  exists g',
    attachStream stream g = (true, g')
    /\ source g' = Some (MediaStreamSource (streamId stream))
    /\ activeStream g' = Some stream
    /\ connections g'
       = connectNode (MediaStreamSource (streamId stream)) Analyser (connections g).
Proof.
  intros Haudio. unfold attachStream, createMediaStreamSource.
  destruct (getAudioTracks stream); [done|]. by eexists.
Qed.

End Router.

(** C3 as stated fails: with a media element attached, a rejected microphone
    request returns failure and leaves the router idle, the element
    detached; with the microphone attached, an unsupported system capture
    returns failure and leaves the router without its microphone stream. *)
Lemma failed_connect_changes_state :
  (connectMicrophone Rejected elementActive).1 = false
  /\ routerState elementActive = (Some (MediaElementSource 7), None)
  /\ routerState (connectMicrophone Rejected elementActive).2 = (None, None)
  /\ routerState (connectMicrophone Rejected elementActive).2 <> routerState elementActive
  /\ (connectSystemAudio Unsupported microphoneActive).1 = false
  /\ routerState (connectSystemAudio Unsupported microphoneActive).2
     <> routerState microphoneActive.
Proof. by vm_compute. Qed.

(** C9 as stated fails: with the microphone attached, a capture without an
    audio track returns failure and the router has lost its microphone. *)
Lemma system_audio_rejection_changes_state :
  (connectSystemAudio (Granted videoOnlyStream) microphoneActive).1 = false
  /\ routerState microphoneActive
     = (Some (MediaStreamSource 1), Some micStream)
  /\ routerState (connectSystemAudio (Granted videoOnlyStream) microphoneActive).2
     = (None, None)
  /\ routerState (connectSystemAudio (Granted videoOnlyStream) microphoneActive).2
     <> routerState microphoneActive.
Proof. by vm_compute. Qed.

(** ** Feedback: what reaches the destination *)

Section Feedback.

Implicit Types (g : UnifiedAudioGraph) (c : Capture) (n : AudioNode).

Lemma disconnect_connections g a b :
  (a, b) ∈ connections (disconnect g)
  <-> (a, b) ∈ connections g /\ source g ≠ Some a.
Proof.
  unfold disconnect. destruct g as [[n|] [s|] ? E ? ?]; cbn;
    unfold disconnectNode; rewrite ?elem_of_filter; cbn;
    (split; [intros [? ?] || intros ?; split; congruence
            | intros [? ?]; try split; congruence]).
Qed.

Lemma disconnect_source g : source (disconnect g) = None.
Proof. by destruct g as [[?|] [?|] ? ? ? ?]. Qed.

Lemma disconnect_tapped g : tappedElements (disconnect g) = tappedElements g.
Proof. by destruct g as [[?|] [?|] ? ? ? ?]. Qed.

Lemma resume_wired g : wired g -> wired (resume g).
Proof. unfold wired, resume. by destruct (suspended g). Qed.

Lemma disconnect_wired g : wired g -> wired (disconnect g).
Proof.
  intros [Hedge Hsrc]. split.
  - by apply disconnect_connections.
  - by rewrite disconnect_source.
Qed.

Lemma attachStream_wired stream g : wired g -> wired (attachStream stream g).2.
Proof.
  intros [Hedge Hsrc]. unfold attachStream, createMediaStreamSource.
  destruct (getAudioTracks stream); split; cbn; try done.
  unfold connectNode. by apply elem_of_union_l.
Qed.

Lemma connectElement_wired el g : wired g -> wired (connectElement el g).
Proof.
  intros Hw. apply resume_wired, disconnect_wired in Hw.
  unfold connectElement. case_decide; [done|].
  split; cbn; [|done]. unfold connectNode.
  by apply elem_of_union_r, elem_of_singleton.
Qed.

Lemma connectElement_fresh el g :
  el ∉ tappedElements g -> wired (connectElement el g).
Proof.
  intros Hfresh. unfold connectElement.
  rewrite disconnect_tapped. destruct (resume_fields g) as (_ & _ & _ & _ & ->).
  case_decide; [done|].
  split; cbn; [|done]. unfold connectNode.
  by apply elem_of_union_r, elem_of_singleton.
Qed.

Lemma perform_wired g op : wired g -> wired (perform g op).
Proof.
  intros Hw. destruct op as [c|c|el|]; cbn.
  - apply resume_wired, disconnect_wired in Hw.
    unfold connectMicrophone. destruct c; try done. by apply attachStream_wired.
  - apply resume_wired, disconnect_wired in Hw.
    unfold connectSystemAudio. destruct c as [| |stream]; try done.
    destruct (getAudioTracks stream) eqn:Haudio; [done|].
    by apply attachStream_wired.
  - by apply connectElement_wired.
  - by apply disconnect_wired.
Qed.

Lemma performAll_wired ops g : wired g -> wired (performAll ops g).
Proof.
  revert g. induction ops as [|op ops IH]; intros g Hw; [done|].
  cbn. apply IH. by apply perform_wired.
Qed.

(** A microphone attached to a wired graph is heard. *)
Lemma connectMicrophone_wired_audible stream g :
  wired g ->
  getAudioTracks stream <> [] ->
  exists g',
    connectMicrophone (Granted stream) g = (true, g')
    /\ source g' = Some (MediaStreamSource (streamId stream))
    /\ feeds g' (MediaStreamSource (streamId stream)) Analyser
    /\ feeds g' Analyser Destination
    /\ audible g' (MediaStreamSource (streamId stream)).
Proof.
  intros Hw Haudio. apply resume_wired, disconnect_wired in Hw as [Hedge _].
  unfold connectMicrophone.
  destruct (attachStream_success stream (disconnect (resume g)) Haudio)
    as (g' & -> & Hsrc & _ & Hconn).
  exists g'. split; [done|]. split; [done|].
  assert (feeds g' (MediaStreamSource (streamId stream)) Analyser) as H1.
  { unfold feeds. rewrite Hconn. unfold connectNode.
    by apply elem_of_union_r, elem_of_singleton. }
  assert (feeds g' Analyser Destination) as H2.
  { unfold feeds. rewrite Hconn. unfold connectNode. by apply elem_of_union_l. }
  repeat split; try done.
  unfold audible. eapply rtc_l; [exact H1|]. by apply rtc_once.
Qed.

(** C4: the code after a connectElement.  Once a media element has been
    attached, the analyser stays connected to the destination through every
    later operation, and a microphone then attached to the analyser is
    routed on to the audible output. *)
Theorem microphone_audible_after_element before el after stream :
  el ∉ tappedElements (performAll before newGraph) ->
  getAudioTracks stream <> [] ->
  exists g',
    connectMicrophone (Granted stream)
      (performAll after (connectElement el (performAll before newGraph)))
    = (true, g')
    /\ source g' = Some (MediaStreamSource (streamId stream))
    /\ feeds g' (MediaStreamSource (streamId stream)) Analyser
    /\ feeds g' Analyser Destination
    /\ audible g' (MediaStreamSource (streamId stream)).
Proof.
  intros Hfresh Haudio.
  apply connectMicrophone_wired_audible; [|done].
  by apply performAll_wired, connectElement_fresh.
Qed.

(** Without a connectElement nothing ever feeds the destination, and the
    microphone stays silent: the path to the output is the one that
    connectElement leaves behind. *)
Lemma disconnect_muted g : muted g -> muted (disconnect g).
Proof. intros Hm n Hn. apply disconnect_connections in Hn as [Hn _]. by apply (Hm n). Qed.

Lemma resume_muted g : muted g -> muted (resume g).
Proof. unfold muted, resume. by destruct (suspended g). Qed.

Lemma attachStream_muted stream g : muted g -> muted (attachStream stream g).2.
Proof.
  intros Hm. unfold attachStream, createMediaStreamSource.
  destruct (getAudioTracks stream); cbn; [done|].
  intros n Hn. cbn in Hn. unfold connectNode in Hn.
  apply elem_of_union in Hn as [Hn | Hn]; [by apply (Hm n)|].
  apply elem_of_singleton in Hn. discriminate.
Qed.

Lemma perform_muted g op : ~ isConnectElement op -> muted g -> muted (perform g op).
Proof.
  intros Hop Hm. destruct op as [c|c|el|]; cbn.
  - apply resume_muted, disconnect_muted in Hm.
    unfold connectMicrophone. destruct c; try done. by apply attachStream_muted.
  - apply resume_muted, disconnect_muted in Hm.
    unfold connectSystemAudio. destruct c as [| |stream]; try done.
    destruct (getAudioTracks stream) eqn:Haudio; [done|].
    by apply attachStream_muted.
  - by destruct Hop.
  - by apply disconnect_muted.
Qed.

Lemma performAll_muted ops g :
  Forall (fun op => ~ isConnectElement op) ops -> muted g -> muted (performAll ops g).
Proof.
  revert g. induction ops as [|op ops IH]; intros g Hops Hm; [done|].
  apply Forall_cons in Hops as [Hop Hops]. cbn. apply IH; [done|].
  by apply perform_muted.
Qed.

Lemma muted_inaudible g n : muted g -> n <> Destination -> ~ audible g n.
Proof.
  intros Hm Hn Ha. apply rtc_inv_r in Ha as [-> | (m & _ & Hlast)]; [done|].
  by apply (Hm m).
Qed.

Lemma microphone_silent_without_element ops stream :
  Forall (fun op => ~ isConnectElement op) ops ->
  ~ audible (connectMicrophone (Granted stream) (performAll ops newGraph)).2
      (MediaStreamSource (streamId stream)).
Proof.
  intros Hops. apply muted_inaudible; [|done].
  apply (perform_muted _ (OpConnectMicrophone (Granted stream))); [by intros []|].
  apply performAll_muted; [done|]. intros n. apply not_elem_of_empty.
Qed.

End Feedback.

Lemma microphone_audible_after_element_witness :
  exists g',
    connectMicrophone (Granted micStream)
      (performAll [] (connectElement 7 (performAll [] newGraph)))
    = (true, g')
    /\ source g' = Some (MediaStreamSource (streamId micStream))
    /\ feeds g' (MediaStreamSource (streamId micStream)) Analyser
    /\ feeds g' Analyser Destination
    /\ audible g' (MediaStreamSource (streamId micStream)).
Proof.
  apply (microphone_audible_after_element [] 7 [] micStream).
  - apply not_elem_of_empty.
  - discriminate.
Defined.

(** ** A connect that fails *)

Section Failure.

Implicit Types (g : UnifiedAudioGraph) (c : Capture) (a : Answer).

(** The two connects begin alike: resume, then a full disconnect. *)
Lemma connect_begins supported g :
  connectMicrophoneBegin supported g
  = (if supported then None else Some false, disconnect (resume g))
  /\ connectSystemAudioBegin supported g
     = (if supported then None else Some false, disconnect (resume g)).
Proof. unfold connectMicrophoneBegin, connectSystemAudioBegin. by destruct supported. Qed.

(** What the opening disconnect does to the state the call found. *)
Lemma opening_disconnect g :
  idle (disconnect (resume g))
  /\ (forall n b, source g = Some n -> ~ feeds (disconnect (resume g)) n b)
  /\ (forall s t, activeStream g = Some s -> t ∈ getTracks s ->
                  trackId t ∈ stoppedTracks (disconnect (resume g)))
  /\ (forall x y, feeds (disconnect (resume g)) x y <-> feeds g x y /\ source g <> Some x).
Proof.
  destruct (resume_fields g) as (Hsrc & Hstream & Hconn & _).
  split; [apply disconnect_idle|].
  assert (Hedges : forall x y,
            feeds (disconnect (resume g)) x y <-> feeds g x y /\ source g <> Some x).
  { intros x y. unfold feeds. rewrite disconnect_connections, Hconn, Hsrc. done. }
  split; [|split; [|exact Hedges]].
  - intros n b Hn Hedge. apply Hedges in Hedge as [_ Hne]. done.
  - intros s t Hs Ht. apply (disconnect_stops (resume g) s); [by rewrite Hstream|done].
Qed.

(** A call that nothing interrupts is its beginning followed by its end. *)
Lemma connect_uninterrupted c g :
  connectMicrophone c g
  = match answerOf c with
    | [] => (false, (connectMicrophoneBegin false g).2)
    | a :: _ => connectMicrophoneSettle a (connectMicrophoneBegin true g).2
    end
  /\ connectSystemAudio c g
     = match answerOf c with
       | [] => (false, (connectSystemAudioBegin false g).2)
       | a :: _ => connectSystemAudioSettle a (connectSystemAudioBegin true g).2
       end.
Proof. by destruct c. Qed.

(** A request that settles in failure leaves the source and the connections
    it finds. *)
Lemma settle_failure a g1 g' :
  connectMicrophoneSettle a g1 = (false, g') \/ connectSystemAudioSettle a g1 = (false, g') ->
  source g' = source g1
  /\ connections g' = connections g1
  /\ stoppedTracks g1 ⊆ stoppedTracks g'
  /\ (a = Denied -> g' = g1)
  /\ (forall s, a = Allowed s -> getAudioTracks s = [])
  /\ (activeStream g' = activeStream g1
      \/ exists s, a = Allowed s /\ connectMicrophoneSettle a g1 = (false, g')
                   /\ activeStream g' = Some s).
Proof.
  unfold connectMicrophoneSettle, connectSystemAudioSettle.
  destruct a as [|s].
  - intros [[= <-] | [= <-]]; repeat split; try done; by left.
  - intros [Hmic | Hsys].
    + pose proof Hmic as Hkeep.
      apply attachStream_failure in Hmic as (Hnone & Hsrc & Hconn & Hstop).
      split; [done|]. split; [done|]. split; [by rewrite Hstop|].
      split; [done|]. split; [by intros ? [= <-]|].
      right. exists s. split; [done|]. split; [done|].
      revert Hkeep. unfold attachStream. destruct (createMediaStreamSource s); [done|].
      by intros [= <-].
    + destruct (getAudioTracks s) eqn:Haudio.
      * injection Hsys as <-. cbn.
        repeat split; try done;
          [unfold stopAll; apply union_subseteq_l|by intros ? [= <-]|by left].
      * apply attachStream_failure in Hsys as (Hnone & _). by rewrite Haudio in Hnone.
Qed.

End Failure.

(** C3, as amended.  connectMicrophone and connectSystemAudio begin with
    disconnect(): before anything is requested the prior source is detached
    and the tracks of the prior stream are stopped, and without the
    capability the call returns failure there, the router idle.  A request
    that settles in failure attaches nothing: the source and the connections
    are those the router had when the request settled, and so is the stream
    it owns (a microphone stream granted without an audio track would be
    kept).  So when nothing else ran during the call, a failed connect
    leaves the router with no source, the prior source detached and the
    prior stream stopped: the state of before the call exactly when the
    router was idle before. *)
Theorem failed_connect_outcome (g : UnifiedAudioGraph) :
  ((connectMicrophoneBegin true g).1 = None
   /\ (connectMicrophoneBegin false g).1 = Some false
   /\ forall supported,
        idle (connectMicrophoneBegin supported g).2
        /\ (forall n b, source g = Some n -> ~ feeds (connectMicrophoneBegin supported g).2 n b)
        /\ (forall s t, activeStream g = Some s -> t ∈ getTracks s ->
                        trackId t ∈ stoppedTracks (connectMicrophoneBegin supported g).2))
  /\ ((connectSystemAudioBegin true g).1 = None
   /\ (connectSystemAudioBegin false g).1 = Some false
   /\ forall supported,
        idle (connectSystemAudioBegin supported g).2
        /\ (forall n b, source g = Some n -> ~ feeds (connectSystemAudioBegin supported g).2 n b)
        /\ (forall s t, activeStream g = Some s -> t ∈ getTracks s ->
                        trackId t ∈ stoppedTracks (connectSystemAudioBegin supported g).2))
  /\ (forall a g1 g',
        connectMicrophoneSettle a g1 = (false, g')
        \/ connectSystemAudioSettle a g1 = (false, g') ->
        source g' = source g1
        /\ connections g' = connections g1
        /\ stoppedTracks g1 ⊆ stoppedTracks g'
        /\ (a = Denied -> g' = g1)
        /\ (forall s, a = Allowed s -> getAudioTracks s = [])
        /\ (activeStream g' = activeStream g1
            \/ exists s, a = Allowed s /\ connectMicrophoneSettle a g1 = (false, g')
                         /\ activeStream g' = Some s))
  /\ (forall c g',
        connectMicrophone c g = (false, g') \/ connectSystemAudio c g = (false, g') ->
        source g' = None
        /\ (forall n b, source g = Some n -> ~ feeds g' n b)
        /\ (forall s t, activeStream g = Some s -> t ∈ getTracks s ->
                        trackId t ∈ stoppedTracks g')
        /\ (forall x y, feeds g' x y <-> feeds g x y /\ source g <> Some x)
        /\ (activeStream g' = None
            \/ exists s, c = Granted s /\ getAudioTracks s = []
                         /\ connectMicrophone c g = (false, g')
                         /\ activeStream g' = Some s)
        /\ (idle g' -> (routerState g' = routerState g <-> idle g))).
Proof.
  destruct (opening_disconnect g) as (Hidle & Hdetached & Hstopped & Hedges).
  assert (Hopening :
            forall begin : bool -> UnifiedAudioGraph -> option bool * UnifiedAudioGraph,
            (forall supported : bool,
               begin supported g
               = (if supported then None else Some false, disconnect (resume g))) ->
            (begin true g).1 = None
            /\ (begin false g).1 = Some false
            /\ forall supported : bool,
                 idle (begin supported g).2
                 /\ (forall n b, source g = Some n -> ~ feeds (begin supported g).2 n b)
                 /\ (forall s t, activeStream g = Some s -> t ∈ getTracks s ->
                                 trackId t ∈ stoppedTracks (begin supported g).2)).
  { intros begin Hbegin. rewrite !Hbegin. split; [done|]. split; [done|].
    intros supported. rewrite Hbegin. cbn [snd]. done. }
  split; [apply Hopening; intros; apply connect_begins|].
  split; [apply Hopening; intros; apply connect_begins|].
  split; [apply settle_failure|].
  intros c g' Hfail.
  assert (Hsettled : exists g1,
            g1 = disconnect (resume g)
            /\ ((c = Unsupported /\ g' = g1)
                \/ exists a, answerOf c = [a]
                     /\ (connectMicrophoneSettle a g1 = (false, g')
                         /\ connectMicrophone c g = (false, g')
                         \/ connectSystemAudioSettle a g1 = (false, g')))).
  { exists (disconnect (resume g)). split; [done|].
    destruct c as [| |s].
    - left. split; [done|]. by destruct Hfail as [[= <-] | [= <-]].
    - right. exists Denied. split; [done|]. destruct Hfail as [H | H]; [left|right]; done.
    - right. exists (Allowed s). split; [done|]. destruct Hfail as [H | H]; [left|right]; done. }
  destruct Hsettled as (g1 & -> & [[-> ->] | (a & Ha & Hsettle)]).
  - pose proof Hidle as Hidle0. unfold idle, routerState in Hidle0.
    injection Hidle0 as Hs Hst.
    split; [done|]. split; [exact Hdetached|]. split; [exact Hstopped|].
    split; [exact Hedges|]. split; [by left|].
    intros _. unfold idle in *. split; congruence.
  - assert (Hfail' : connectMicrophoneSettle a (disconnect (resume g)) = (false, g')
                     \/ connectSystemAudioSettle a (disconnect (resume g)) = (false, g'))
      by (destruct Hsettle as [[? _] | ?]; [by left|by right]).
    destruct (settle_failure a _ g' Hfail') as (Hsrc & Hconn & Hstop & _ & Hnone & Hstream).
    unfold idle, routerState in Hidle. injection Hidle as Hs Hst.
    assert (Hfeeds : forall x y, feeds g' x y <-> feeds g x y /\ source g <> Some x).
    { intros x y. unfold feeds. rewrite Hconn. apply Hedges. }
    split; [congruence|]. split; [|split; [|split; [exact Hfeeds|split]]].
    + intros n b Hn Hedge. apply Hfeeds in Hedge as [_ Hne]. done.
    + intros s t Hs' Ht. apply Hstop. eauto.
    + destruct Hstream as [Hsame | (s & -> & Hmic & Hown)]; [left; congruence|].
      right. exists s. destruct c as [| |s']; try discriminate Ha.
      injection Ha as ->. split; [done|]. split; [by apply Hnone|].
      split; [|done]. exact Hmic.
    + intros Hidle'. unfold idle in *. split; congruence.
Qed.

(** C9, as amended.  connectSystemAudio() begins with disconnect(), which
    detaches the prior source and stops the tracks of the prior stream.  If
    the capture stream it then obtains contains zero audio tracks, it
    returns failure, every track of that stream is stopped before the call
    returns, and the call attaches nothing and stores no stream: source,
    stream and connections are those the router had when the request
    settled.  When nothing else ran during the call the router is left
    idle: unchanged if it was idle before, otherwise without its prior
    source and with its prior stream stopped. *)
Theorem system_audio_without_track (g g1 : UnifiedAudioGraph) (stream : MediaStream) :
  getAudioTracks stream = [] ->
  ((connectSystemAudioBegin true g).1 = None
   /\ (connectSystemAudioBegin false g).1 = Some false
   /\ forall supported,
        idle (connectSystemAudioBegin supported g).2
        /\ (forall n b, source g = Some n -> ~ feeds (connectSystemAudioBegin supported g).2 n b)
        /\ (forall s t, activeStream g = Some s -> t ∈ getTracks s ->
                        trackId t ∈ stoppedTracks (connectSystemAudioBegin supported g).2))
  /\ (exists g',
        connectSystemAudioSettle (Allowed stream) g1 = (false, g')
        /\ (forall t, t ∈ getTracks stream -> trackId t ∈ stoppedTracks g')
        /\ routerState g' = routerState g1
        /\ connections g' = connections g1
        /\ stoppedTracks g1 ⊆ stoppedTracks g')
  /\ (exists g',
        connectSystemAudio (Granted stream) g = (false, g')
        /\ (forall t, t ∈ getTracks stream -> trackId t ∈ stoppedTracks g')
        /\ idle g'
        /\ (forall n b, source g = Some n -> ~ feeds g' n b)
        /\ (forall s t, activeStream g = Some s -> t ∈ getTracks s ->
                        trackId t ∈ stoppedTracks g')
        /\ (forall a b, feeds g' a b <-> feeds g a b /\ source g <> Some a)
        /\ (idle g -> routerState g' = routerState g /\ connections g' = connections g)).
Proof.
  intros Haudio.
  destruct (opening_disconnect g) as (Hidle & Hdetached & Hstopped & Hedges).
  assert (Hstream : forall g0,
            connectSystemAudioSettle (Allowed stream) g0
            = (false,
               {| source := source g0; activeStream := activeStream g0;
                  suspended := suspended g0; connections := connections g0;
                  stoppedTracks := stopAll (getTracks stream) (stoppedTracks g0);
                  tappedElements := tappedElements g0 |})).
  { intros g0. unfold connectSystemAudioSettle. by rewrite Haudio. }
  assert (Hall : forall stopped t, t ∈ getTracks stream ->
                   trackId t ∈ stopAll (getTracks stream) stopped).
  { intros stopped t Ht. unfold stopAll.
    apply elem_of_union_r, elem_of_list_to_set, list_elem_of_fmap. eauto. }
  split; [|split].
  - destruct (connect_begins true g) as [_ ->]. destruct (connect_begins false g) as [_ ->].
    split; [done|]. split; [done|]. intros supported.
    destruct (connect_begins supported g) as [_ ->]. cbn [snd]. done.
  - eexists. split; [apply Hstream|]. cbn.
    split; [apply Hall|]. split; [done|]. split; [done|].
    unfold stopAll. apply union_subseteq_l.
  - eexists. split.
    { destruct (connect_uninterrupted (Granted stream) g) as [_ ->]. cbn [answerOf].
      destruct (connect_begins true g) as [_ ->]. cbn [snd]. apply Hstream. }
    cbn. split; [apply Hall|]. split; [exact Hidle|].
    split; [exact Hdetached|]. split.
    { intros s t Hs Ht. unfold stopAll. apply elem_of_union_l. eauto. }
    split; [exact Hedges|].
    intros Hg. destruct (disconnect_resume g) as (Hr & Hc & _).
    rewrite (disconnect_of_idle g Hg) in Hr, Hc.
    split; [exact Hr|exact Hc].
Qed.

Lemma system_audio_without_track_witness :
  ((connectSystemAudioBegin true microphoneActive).1 = None
   /\ (connectSystemAudioBegin false microphoneActive).1 = Some false
   /\ forall supported,
        idle (connectSystemAudioBegin supported microphoneActive).2
        /\ (forall n b, source microphoneActive = Some n -> ~ feeds (connectSystemAudioBegin supported microphoneActive).2 n b)
        /\ (forall s t, activeStream microphoneActive = Some s -> t ∈ getTracks s ->
                        trackId t ∈ stoppedTracks (connectSystemAudioBegin supported microphoneActive).2))
  /\ (exists g',
        connectSystemAudioSettle (Allowed videoOnlyStream) (disconnect (resume microphoneActive)) = (false, g')
        /\ (forall t, t ∈ getTracks videoOnlyStream -> trackId t ∈ stoppedTracks g')
        /\ routerState g' = routerState (disconnect (resume microphoneActive))
        /\ connections g' = connections (disconnect (resume microphoneActive))
        /\ stoppedTracks (disconnect (resume microphoneActive)) ⊆ stoppedTracks g')
  /\ (exists g',
        connectSystemAudio (Granted videoOnlyStream) microphoneActive = (false, g')
        /\ (forall t, t ∈ getTracks videoOnlyStream -> trackId t ∈ stoppedTracks g')
        /\ idle g'
        /\ (forall n b, source microphoneActive = Some n -> ~ feeds g' n b)
        /\ (forall s t, activeStream microphoneActive = Some s -> t ∈ getTracks s ->
                        trackId t ∈ stoppedTracks g')
        /\ (forall a b, feeds g' a b <-> feeds microphoneActive a b /\ source microphoneActive <> Some a)
        /\ (idle microphoneActive -> routerState g' = routerState microphoneActive /\ connections g' = connections microphoneActive)).
Proof.
  apply (system_audio_without_track microphoneActive
           (disconnect (resume microphoneActive)) videoOnlyStream).
  reflexivity.
Defined.

(** ** Integer roots *)

Section Roots.

Variable n : Z.
Hypothesis Hn : 1 <= n.

Lemma pow_le_base a b : 0 <= a <= b -> a ^ n <= b ^ n.
Proof. intros. apply Z.pow_le_mono_l. lia. Qed.

Lemma pow_lt_base a b : 0 <= a < b -> a ^ n < b ^ n.
Proof. intros. apply Z.pow_lt_mono_l; lia. Qed.

Lemma iroot_search_spec x fuel :
  forall lo hi,
    0 <= lo < hi ->
    lo ^ n <= x < hi ^ n ->
    hi - lo <= 2 ^ Z.of_nat fuel ->
    let k := iroot_search fuel n x lo hi in
    lo <= k < hi /\ k ^ n <= x < (k + 1) ^ n.
Proof.
  induction fuel as [|fuel IH]; intros lo hi Hlohi Hx Hgap.
  - cbn in *. replace (lo + 1) with hi by lia. lia.
  - cbn [iroot_search]. destruct (Z.leb_spec (hi - lo) 1) as [Hone|Hmany].
    + cbn. replace (lo + 1) with hi by lia. lia.
    + rewrite Nat2Z.inj_succ, Z.pow_succ_r in Hgap by lia.
      set (mid := (lo + hi) / 2).
      assert (lo < mid < hi /\ mid - lo <= 2 ^ Z.of_nat fuel
              /\ hi - mid <= 2 ^ Z.of_nat fuel) as (Hmid & Hl & Hr)
        by (subst mid; Z.to_euclidean_division_equations; lia).
      destruct (Z.leb_spec (mid ^ n) x) as [Hle|Hgt].
      * specialize (IH mid hi). cbn in IH. lia.
      * specialize (IH lo mid). cbn in IH. lia.
Qed.

(** [iroot n x] is the integer part of the [n]-th root of [x]. *)
Lemma iroot_spec x :
  0 <= x ->
  0 <= iroot n x /\ iroot n x ^ n <= x < (iroot n x + 1) ^ n.
Proof.
  intros Hx. unfold iroot.
  set (bits := Z.log2 x / n + 1).
  assert (Hbits : 0 < bits).
  { subst bits. pose proof (Z.log2_nonneg x).
    pose proof (Z.div_pos (Z.log2 x) n). lia. }
  assert (Hhi : x < (2 ^ bits) ^ n).
  { rewrite <- Z.pow_mul_r by lia.
    assert (Z.log2 x + 1 <= bits * n).
    { subst bits. pose proof (Z.mod_pos_bound (Z.log2 x) n).
      pose proof (Z.div_mod (Z.log2 x) n). nia. }
    assert (x < 2 ^ (Z.log2 x + 1)).
    { destruct (Z.eq_dec x 0) as [->|]; [done|].
      pose proof (Z.log2_spec x). replace (Z.succ (Z.log2 x)) with (Z.log2 x + 1) in * by lia.
      lia. }
    pose proof (Z.pow_le_mono_r 2 (Z.log2 x + 1) (bits * n)). lia. }
  pose proof (Z.pow_pos_nonneg 2 bits).
  destruct (iroot_search_spec x (Z.to_nat bits) 0 (2 ^ bits)) as [Hk Hroot].
  - lia.
  - rewrite Z.pow_0_l by lia. lia.
  - rewrite Z2Nat.id by lia. lia.
  - cbn in Hk, Hroot. lia.
Qed.

Lemma iroot_unique x k :
  0 <= k -> k ^ n <= x < (k + 1) ^ n -> iroot n x = k.
Proof.
  intros Hk Hx.
  assert (0 <= x) by (pose proof (Z.pow_nonneg k n); lia).
  destruct (iroot_spec x) as (Hr0 & Hr); [done|].
  destruct (Z.lt_trichotomy (iroot n x) k) as [Hlt | [Heq | Hgt]]; [|done|].
  - pose proof (pow_le_base (iroot n x + 1) k). lia.
  - pose proof (pow_le_base (k + 1) (iroot n x)). lia.
Qed.

Lemma iroot_mono x y : 0 <= x <= y -> iroot n x <= iroot n y.
Proof.
  intros Hxy.
  destruct (iroot_spec x) as (Hx0 & Hx); [lia|].
  destruct (iroot_spec y) as (Hy0 & Hy); [lia|].
  destruct (Z.le_gt_cases (iroot n x) (iroot n y)) as [|Hgt]; [done|].
  pose proof (pow_le_base (iroot n y + 1) (iroot n x)). lia.
Qed.

Lemma iroot_pow k : 0 <= k -> iroot n (k ^ n) = k.
Proof.
  intros Hk. apply iroot_unique; [done|].
  pose proof (pow_lt_base k (k + 1)). lia.
Qed.

End Roots.

(** ** The spans of the bars *)

Section Banding.

Variables bars maxBin : Z.
Hypothesis Hbars : 1 <= bars.
Hypothesis HmaxBin : 0 <= maxBin.

Lemma startBin_eq i : startBin bars maxBin i = iroot bars (maxBin ^ i).
Proof. unfold startBin, floorPow, minBin. rewrite Z.div_1_r. lia. Qed.

Lemma endBin_eq i : endBin bars maxBin i = startBin bars maxBin (i + 1).
Proof. reflexivity. Qed.

Lemma startBin_nonneg i : 0 <= i -> 0 <= startBin bars maxBin i.
Proof.
  intros Hi. rewrite startBin_eq.
  apply iroot_spec; [done|]. by apply Z.pow_nonneg.
Qed.

Lemma startBin_first : startBin bars maxBin 0 = 1.
Proof.
  rewrite startBin_eq, Z.pow_0_r.
  transitivity (iroot bars (1 ^ bars)); [by rewrite Z.pow_1_l by lia|].
  apply iroot_pow; lia.
Qed.

Lemma startBin_last : startBin bars maxBin bars = maxBin.
Proof. rewrite startBin_eq. by apply iroot_pow. Qed.

Lemma safeEndBin_above i :
  startBin bars maxBin i < safeEndBin bars maxBin i
  /\ endBin bars maxBin i <= safeEndBin bars maxBin i.
Proof. unfold safeEndBin. lia. Qed.

Section Monotone.

Hypothesis Hbins : 1 <= maxBin.

Lemma startBin_mono i j :
  0 <= i <= j -> startBin bars maxBin i <= startBin bars maxBin j.
Proof.
  intros Hij. rewrite !startBin_eq. apply iroot_mono; [done|].
  split; [apply Z.pow_nonneg; lia|]. apply Z.pow_le_mono_r; lia.
Qed.

Lemma safeEndBin_mono i j :
  0 <= i <= j -> safeEndBin bars maxBin i <= safeEndBin bars maxBin j.
Proof.
  intros Hij. unfold safeEndBin. rewrite !endBin_eq.
  pose proof (startBin_mono i j Hij).
  pose proof (startBin_mono (i + 1) (j + 1)). lia.
Qed.

End Monotone.

(** Between two bars the starts do not jump over a bin. *)
Lemma span_found b (k : nat) :
  startBin bars maxBin 0 <= b < startBin bars maxBin (Z.of_nat k) ->
  exists i, 0 <= i < Z.of_nat k
            /\ startBin bars maxBin i <= b < startBin bars maxBin (i + 1).
Proof.
  induction k as [|k IH]; intros Hb; [change (Z.of_nat 0) with 0 in Hb; lia|].
  destruct (Z.lt_ge_cases b (startBin bars maxBin (Z.of_nat k))) as [Hlt|Hge].
  - destruct IH as (i & Hi & Hspan); [lia|]. exists i. lia.
  - exists (Z.of_nat k). rewrite Nat2Z.inj_succ in Hb.
    replace (Z.of_nat k + 1) with (Z.succ (Z.of_nat k)) by lia. lia.
Qed.

Lemma every_inner_bin_covered b :
  1 <= b < maxBin -> exists i, 0 <= i < bars /\ covers bars maxBin i b.
Proof.
  intros Hb.
  destruct (span_found b (Z.to_nat bars)) as (i & Hi & Hspan).
  { rewrite Z2Nat.id, startBin_first, startBin_last by lia. lia. }
  exists i. split; [lia|]. unfold covers.
  pose proof (safeEndBin_above i). rewrite endBin_eq in *. lia.
Qed.

(** With at least two usable bins no span reaches the last one. *)
Lemma startBin_below_last i :
  2 <= maxBin -> 0 <= i < bars -> startBin bars maxBin i < maxBin.
Proof.
  intros Hbins Hi. rewrite startBin_eq.
  destruct (iroot_spec bars Hbars (maxBin ^ i)) as (Hk0 & Hk & _).
  { apply Z.pow_nonneg; lia. }
  destruct (Z.lt_ge_cases (iroot bars (maxBin ^ i)) maxBin) as [|Hge]; [done|].
  pose proof (pow_le_base bars maxBin (iroot bars (maxBin ^ i))).
  pose proof (Z.pow_lt_mono_r maxBin i bars). lia.
Qed.

Lemma safeEndBin_at_most_last i :
  2 <= maxBin -> 0 <= i < bars -> safeEndBin bars maxBin i <= maxBin.
Proof.
  intros Hbins Hi. unfold safeEndBin. rewrite endBin_eq.
  pose proof (startBin_below_last i Hbins Hi).
  pose proof (startBin_mono ltac:(lia) (i + 1) bars).
  rewrite startBin_last in *. lia.
Qed.

Lemma banding_holds : 2 <= maxBin -> banding bars maxBin.
Proof.
  intros Hbins. split; [apply startBin_first|]. split; [|split].
  - intros i Hi _. split; [apply startBin_mono|apply safeEndBin_mono]; lia.
  - apply every_inner_bin_covered.
  - intros i Hi [_ Hcov].
    pose proof (safeEndBin_at_most_last i Hbins Hi). lia.
Qed.

End Banding.

(** The first and the last spans of the 64-bar banding over 2048 bins. *)
Example spans_of_64_bars :
  map (fun i => (startBin 64 2047 i, safeEndBin 64 2047 i)) [0; 1; 5; 6; 62; 63]
  = [(1, 2); (1, 2); (1, 2); (2, 3); (1613, 1817); (1817, 2047)].
Proof. by vm_compute. Qed.

(** C5, as amended.  For transform size 4096, and for 64 target bars as for
    the 512 bars that drawBars draws, with the spans clamped to at least one
    bin: bar 0's span starts at bin 1; the starts and the upper bounds of the
    spans are non-decreasing in the bar index; every bin in [1, maxBin - 1]
    is covered by at least one span; the spans being half-open, none covers
    bin maxBin itself. *)
Theorem banding_of_the_bars :
  banding 64 (frequencyBinCount - 1) /\ banding numBars (frequencyBinCount - 1).
Proof. split; apply banding_holds; by vm_compute. Qed.

(** C5 as stated fails at the last bin: no span of the 64 bars contains bin
    maxBin = 2047. *)
Lemma last_bin_uncovered :
  ~ (forall b, 1 <= b <= frequencyBinCount - 1 ->
       exists i, 0 <= i < 64 /\ covers 64 (frequencyBinCount - 1) i b).
Proof.
  intros Hall.
  destruct (Hall (frequencyBinCount - 1)) as (i & Hi & Hcov); [by vm_compute|].
  destruct (banding_holds 64 (frequencyBinCount - 1)) as (_ & _ & _ & Hlast);
    [by vm_compute..|].
  by apply (Hlast i).
Qed.

(** ** The reads of drawBars *)

Section Scan.

Variable dataArray : list Z.

Let len := Z.of_nat (List.length dataArray).

(** A read of the scan loop never leaves the array. *)
Lemma readBin_inside j : 0 <= j < len -> is_Some (readBin dataArray j).
Proof.
  intros Hj. unfold readBin.
  destruct (Z.ltb_spec j 0); [lia|].
  apply lookup_lt_is_Some. subst len. lia.
Qed.

(** The loop terminates within [bound - j] iterations, and reads only at
    indices from [j] on, below the bound and inside the array. *)
Lemma scanSpan_reads bound from fuel :
  forall j acc,
    0 <= from <= j ->
    (Z.to_nat (bound - j) <= fuel)%nat ->
    Forall (fun k => from <= k < Z.min bound len) (reads acc) ->
    exists s,
      scanSpan fuel dataArray bound j acc = Some s
      /\ Forall (fun k => from <= k < Z.min bound len) (reads s)
      /\ maxVal acc <= maxVal s.
Proof.
  induction fuel as [|fuel IH]; intros j acc Hj Hfuel Hacc.
  - exists acc. cbn [scanSpan].
    destruct (Z.ltb_spec j bound); [lia|]. cbn. split; [done|]. split; [done|lia].
  - cbn [scanSpan].
    destruct (Z.ltb_spec j bound) as [Hb|Hb]; cbn [andb];
      [|exists acc; split; [done|]; split; [done|lia]].
    destruct (Z.ltb_spec j (Z.of_nat (List.length dataArray))) as [Hl|Hl];
      [|exists acc; split; [done|]; split; [done|lia]].
    assert (Hin : from <= j < Z.min bound len) by (subst len; lia).
    destruct (readBin dataArray j) as [v|]; [destruct (Z.ltb_spec (maxVal acc) v)|];
      (edestruct IH as (s & -> & Hs & Hmax);
       [..|exists s; split; [done|]; split; [exact Hs|cbn in Hmax; lia]]);
      cbn [reads]; try lia;
      rewrite Forall_app; split; try done; repeat constructor; lia.
Qed.

End Scan.

Lemma Forall2_with_Forall {A B} (P R : A -> B -> Prop) (Q : A -> Prop) l k :
  Forall2 P l k -> Forall Q l -> (forall x y, P x y -> Q x -> R x y) -> Forall2 R l k.
Proof.
  intros HP. induction HP as [|x y l k Hxy _ IH]; intros HQ Himp; [constructor|].
  apply Forall_cons in HQ as [Hx HQ]. constructor; eauto.
Qed.

Section DrawBars.

Variables (bars binCount : Z) (dataArray : list Z) (width height : Q).
Hypothesis Hbars : 1 <= bars.
Hypothesis HbinCount : 1 <= binCount.

(** Bar [i] is drawn, and its reads lie in its span and in the array. *)
Lemma drawBar_reads i :
  0 <= i ->
  exists r js,
    drawBar bars binCount dataArray width height i = Some (r, js)
    /\ readsWithin bars binCount dataArray i js.
Proof.
  intros Hi. unfold drawBar.
  pose proof (startBin_nonneg bars (binCount - 1) Hbars ltac:(lia) i Hi) as Hstart.
  edestruct (scanSpan_reads dataArray (safeEndBin bars (binCount - 1) i)
               (startBin bars (binCount - 1) i)) as (s & -> & Hs & _).
  - split; [exact Hstart|reflexivity].
  - reflexivity.
  - cbn. constructor.
  - cbn [mbind option_bind]. eexists _, _. split; [reflexivity|].
    unfold readsWithin. eapply Forall_impl; [exact Hs|]. cbn. lia.
Qed.

End DrawBars.

(** C10.  For every canvas size and every frequency-data array, drawBars
    draws all its bars; for every bar index it reads the magnitude array
    only at indices j of the bar's span with j below the minimum of the
    clamped span end and the array length, hence with 0 <= j <
    dataArray.length; and every clamped span [startBin, max(endBin,
    startBin + 1)) is non-empty.  Without a 2D context nothing is read. *)
Theorem drawBars_reads_in_bounds (hasContext : bool) (dataArray : list Z)
    (width height : Q) :
  exists drawn,
    drawBars hasContext dataArray width height = Some drawn
    /\ Forall2 (fun i bar => readsWithin numBars frequencyBinCount dataArray i bar.2)
         (if hasContext then seqZ 0 numBars else []) drawn
    /\ Forall (fun bar =>
                 Forall (fun j => 0 <= j < Z.of_nat (List.length dataArray)) bar.2)
         drawn
    /\ (forall i,
          startBin numBars (frequencyBinCount - 1) i
          < safeEndBin numBars (frequencyBinCount - 1) i).
Proof.
  destruct hasContext; cbn [drawBars].
  2: { exists []. repeat split; try constructor.
       apply safeEndBin_above. }
  assert (Hall : Forall (fun i =>
                   exists bar,
                     drawBar numBars frequencyBinCount dataArray width height i = Some bar
                     /\ readsWithin numBars frequencyBinCount dataArray i bar.2)
                   (seqZ 0 numBars)).
  { apply Forall_seqZ. intros i Hi.
    destruct (drawBar_reads numBars frequencyBinCount dataArray width height) with (i := i)
      as (r & js & Hr & Hjs); [done|done|lia|].
    by exists (r, js). }
  assert (Hsome : is_Some (mapM (drawBar numBars frequencyBinCount dataArray width height)
                             (seqZ 0 numBars))).
  { apply mapM_is_Some. eapply Forall_impl; [exact Hall|].
    intros i (bar & Hbar & _). cbn. by rewrite Hbar. }
  destruct Hsome as [drawn Hdrawn]. exists drawn. split; [exact Hdrawn|].
  assert (Hspans : Forall2 (fun i bar => readsWithin numBars frequencyBinCount dataArray i bar.2)
                     (seqZ 0 numBars) drawn).
  { apply mapM_Some_1 in Hdrawn.
    eapply Forall2_with_Forall; [exact Hdrawn|exact Hall|].
    intros i bar Hbar (bar' & Hbar' & Hreads). congruence. }
  split; [exact Hspans|]. split; [|intros i; apply safeEndBin_above].
  eapply Forall2_Forall_r; [exact Hspans|].
  apply Forall_forall. intros i _ bar Hreads.
  eapply Forall_impl; [exact Hreads|]. cbn. lia.
Qed.

(** ** The bass feature *)

Section Bass.

(** The bins with centre frequency in [10, 90] Hz are bins 1 to 8 at
    44100 Hz, and bins 1 to 7 at 48000 Hz. *)
Lemma bassBins_by_rate :
  bassBins 44100 fftSize frequencyBinCount = seqZ 1 8
  /\ bassBins 48000 fftSize frequencyBinCount = seqZ 1 7.
Proof. by vm_compute. Qed.

Lemma mean_of_bytes_bounded (sum : Z) :
  0 <= sum <= 8 * 255 -> (0 <= inject_Z sum / 8 <= 255)%Q.
Proof.
  intros Hsum. unfold Qle, Qdiv, Qmult, Qinv, inject_Z. cbn. lia.
Qed.

End Bass.

(** C8, as amended.  For every spectrum of at least 9 bins, whatever the
    source sample rate, getBassEnergy returns the arithmetic mean of the
    magnitudes of bins 1 to 8; these are the bins whose centre frequency
    falls in [10, 90] Hz when the source runs at 44100 Hz.  For magnitudes
    that are bytes the value lies in [0, 255]: it is not normalized. *)
Theorem getBassEnergy_mean (data : list Z) :
  (9 <= List.length data)%nat ->
  Forall (fun v => 0 <= v <= 255) data ->
  let bin i := nth i data 0 in
  exists e,
    getBassEnergy data = Some e
    /\ (e == inject_Z (bin 1%nat + bin 2%nat + bin 3%nat + bin 4%nat
                      + bin 5%nat + bin 6%nat + bin 7%nat + bin 8%nat)%Z / 8)%Q
    /\ (0 <= e <= 255)%Q
    /\ bassBins 44100 fftSize frequencyBinCount = seqZ 1 8.
Proof.
  intros Hlen Hbytes bin.
  destruct data as [|d0 [|d1 [|d2 [|d3 [|d4 [|d5 [|d6 [|d7 [|d8 rest]]]]]]]]];
    cbn in Hlen; try lia.
  repeat (apply Forall_cons in Hbytes as [? Hbytes]).
  eexists. split; [reflexivity|]. subst bin. cbn [nth].
  split; [|split; [|apply bassBins_by_rate]].
  - apply Qeq_alt. f_equal. unfold Qcompare, Qdiv, Qmult, Qinv, inject_Z. cbn.
    apply Z.compare_eq_iff. lia.
  - apply mean_of_bytes_bounded. lia.
Qed.

Lemma getBassEnergy_mean_witness :
  let bin i := nth i fullScale 0 in
  exists e,
    getBassEnergy fullScale = Some e
    /\ (e == inject_Z (bin 1%nat + bin 2%nat + bin 3%nat + bin 4%nat
                      + bin 5%nat + bin 6%nat + bin 7%nat + bin 8%nat)%Z / 8)%Q
    /\ (0 <= e <= 255)%Q
    /\ bassBins 44100 fftSize frequencyBinCount = seqZ 1 8.
Proof.
  apply (getBassEnergy_mean fullScale).
  - vm_compute. lia.
  - apply Forall_replicate. lia.
Defined.

(** C8 as stated fails.  On a full-scale spectrum the value is 255, not a
    number of [0, 1]; and at 48000 Hz bin 8, centred at 93.75 Hz, is outside
    [10, 90] Hz and still counted: with that bin alone at full scale the
    value is 255/8, where the mean over the bins in range is 0. *)
Lemma getBassEnergy_not_as_stated :
  getBassEnergy fullScale = Some (2040 # 8)
  /\ ~ (2040 # 8 <= 1)%Q
  /\ bassEnergy_spec 44100 fftSize fullScale = Some (2040 # 2040)
  /\ bassBins 48000 fftSize frequencyBinCount = seqZ 1 7
  /\ getBassEnergy onlyBin8 = Some (255 # 8)
  /\ bassEnergy_spec 48000 fftSize onlyBin8 = Some (0 # 1785)
  /\ ~ (255 # 8 == 0 # 1785)%Q.
Proof.
  split; [vm_compute; reflexivity|]. split; [by vm_compute|].
  split; [vm_compute; reflexivity|]. split; [vm_compute; reflexivity|].
  split; [vm_compute; reflexivity|]. split; [vm_compute; reflexivity|].
  by vm_compute.
Qed.


(* ===================================================================== *)
(** * Part III. Further properties of the code *)
(* ===================================================================== *)

(** ** The encoder *)

Section Samples.

Variable buffer : AudioBuffer.

Let sampleBytes (ch i : Z) : list byte :=
  le_bytes 2 (wrapU 16 (quantize (getChannelData buffer ch i))).

Lemma frameBytes_at i n : forall ch0 (k : nat),
  (k < n)%nat ->
  take 2 (drop (2 * k) (frameBytes buffer i n ch0)) = sampleBytes (ch0 + Z.of_nat k) i.
Proof.
  induction n as [|n IH]; intros ch0 k Hk; [lia|].
  cbn [frameBytes]. destruct k as [|k].
  - replace (ch0 + Z.of_nat 0) with ch0 by lia. reflexivity.
  - replace (2 * S k)%nat with (2 + 2 * k)%nat by lia.
    rewrite drop_app_add' by reflexivity.
    rewrite IH by lia. f_equal. lia.
Qed.

Lemma framesBytes_at n : forall i0 (i k : nat),
  (i < n)%nat ->
  (k < Z.to_nat (numberOfChannels buffer))%nat ->
  take 2 (drop (2 * (i * Z.to_nat (numberOfChannels buffer) + k)) (framesBytes buffer n i0))
  = sampleBytes (Z.of_nat k) (i0 + Z.of_nat i).
Proof.
  induction n as [|n IH]; intros i0 i k Hi Hk; [lia|].
  cbn [framesBytes]. destruct i as [|i].
  - rewrite Nat.mul_0_l, Nat.add_0_l, drop_app_le
      by (rewrite frameBytes_length; lia).
    rewrite take_app_le by (rewrite length_drop, frameBytes_length; lia).
    rewrite frameBytes_at by done. f_equal; lia.
  - replace (2 * (S i * Z.to_nat (numberOfChannels buffer) + k))%nat
      with (2 * Z.to_nat (numberOfChannels buffer)
            + 2 * (i * Z.to_nat (numberOfChannels buffer) + k))%nat by lia.
    rewrite drop_app_add' by (by rewrite frameBytes_length).
    rewrite IH by lia. f_equal. lia.
Qed.

End Samples.

(** X1.  In the encoded container the sample of channel [ch] in frame [i]
    sits at byte offset 44 + 2 (i C + ch), frame after frame and channel
    after channel, and reads back as the 16-bit value the quantizer gave. *)
Theorem encoded_sample_at (buffer : AudioBuffer) (bytes : list byte) (i ch : Z) :
  audioBufferToWav buffer = Some bytes ->
  0 <= i < length buffer ->
  0 <= ch < numberOfChannels buffer ->
  getInt16 bytes (Z.to_nat (44 + 2 * (i * numberOfChannels buffer + ch)))
  = wrapS 16 (quantize (getChannelData buffer ch i)).
Proof.
  intros Henc Hi Hch.
  rewrite audioBufferToWav_layout in Henc by lia.
  assert (bytes = headerBytes buffer ++ dataBytes buffer) as -> by congruence.
  unfold getInt16, getUint16.
  replace (Z.to_nat (44 + 2 * (i * numberOfChannels buffer + ch)))
    with (44 + 2 * (Z.to_nat i * Z.to_nat (numberOfChannels buffer) + Z.to_nat ch))%nat
    by nia.
  rewrite (drop_app_add' _ _ 44 _ (eq_sym (headerBytes_length buffer))).
  unfold dataBytes. rewrite framesBytes_at by lia.
  rewrite le_value_wrapU16, !Z2Nat.id by lia.
  unfold wrapS, wrapU. rewrite Z.mod_mod by lia. reflexivity.
Qed.

Lemma encoded_sample_at_witness :
  getInt16 (headerBytes (scenarioByFrame 44100) ++ dataBytes (scenarioByFrame 44100))
    (Z.to_nat (44 + 2 * (1 * numberOfChannels (scenarioByFrame 44100) + 0)))
  = wrapS 16 (quantize (getChannelData (scenarioByFrame 44100) 0 1)).
Proof.
  apply (encoded_sample_at (scenarioByFrame 44100)).
  - by vm_compute.
  - cbn; lia.
  - cbn; lia.
Defined.

(** X2.  The encoder throws at the allocation or not at all: it returns
    exactly when the platform allocates the N*C*2 + 44 bytes, and then,
    whatever the size of the buffer, the container starts with the tags
    RIFF, WAVE, "fmt " and, at offset 36, "data", and declares a 16-byte
    format chunk of integer PCM at 16 bits per sample: these fields never
    wrap. *)
Theorem encoded_container_tags (maxByteLength : Z) (buffer : AudioBuffer) :
  0 <= length buffer ->
  0 <= numberOfChannels buffer ->
  (maxByteLength < length buffer * numberOfChannels buffer * 2 + 44 ->
   audioBufferToWavWithin maxByteLength buffer = None)
  /\ (length buffer * numberOfChannels buffer * 2 + 44 <= maxByteLength ->
      exists bytes,
        audioBufferToWavWithin maxByteLength buffer = Some bytes
        /\ take 4 bytes = [0x52; 0x49; 0x46; 0x46]
        /\ take 4 (drop 8 bytes) = [0x57; 0x41; 0x56; 0x45]
        /\ take 4 (drop 12 bytes) = [0x66; 0x6d; 0x74; 0x20]
        /\ take 4 (drop 36 bytes) = [0x64; 0x61; 0x74; 0x61]
        /\ getUint32 bytes 16 = 16
        /\ getUint16 bytes 20 = 1
        /\ getUint16 bytes 34 = 16).
Proof.
  intros HN HC. split; [apply audioBufferToWavWithin_refused|].
  intros Halloc. exists (headerBytes buffer ++ dataBytes buffer).
  split; [rewrite audioBufferToWavWithin_granted by done; by apply audioBufferToWav_layout|].
  destruct (header_tags buffer (dataBytes buffer)) as (H0 & H8 & H12 & H36).
  destruct (header_fields buffer (dataBytes buffer))
    as (_ & H16 & H20 & _ & _ & _ & _ & H34 & _).
  repeat split; assumption.
Qed.

Lemma encoded_container_tags_witness :
  (2 ^ 31 < length (scenarioByChannel 48000) * numberOfChannels (scenarioByChannel 48000) * 2 + 44 ->
   audioBufferToWavWithin (2 ^ 31) (scenarioByChannel 48000) = None)
  /\ (length (scenarioByChannel 48000) * numberOfChannels (scenarioByChannel 48000) * 2 + 44
      <= 2 ^ 31 ->
      exists bytes,
        audioBufferToWavWithin (2 ^ 31) (scenarioByChannel 48000) = Some bytes
        /\ take 4 bytes = [0x52; 0x49; 0x46; 0x46]
        /\ take 4 (drop 8 bytes) = [0x57; 0x41; 0x56; 0x45]
        /\ take 4 (drop 12 bytes) = [0x66; 0x6d; 0x74; 0x20]
        /\ take 4 (drop 36 bytes) = [0x64; 0x61; 0x74; 0x61]
        /\ getUint32 bytes 16 = 16
        /\ getUint16 bytes 20 = 1
        /\ getUint16 bytes 34 = 16).
Proof. apply (encoded_container_tags (2 ^ 31) (scenarioByChannel 48000)); cbn; lia. Defined.

Section Extensional.

Variables buffer1 buffer2 : AudioBuffer.

Lemma writeFrame_ext i n : forall ch st,
  (forall k, ch <= k < ch + Z.of_nat n ->
             getChannelData buffer1 k i = getChannelData buffer2 k i) ->
  writeFrame buffer1 i n ch st = writeFrame buffer2 i n ch st.
Proof.
  induction n as [|n IH]; intros ch [v offset] Hsame; [done|].
  cbn [writeFrame]. rewrite Hsame by lia.
  destruct (setInt16 v (44 + offset) _) as [v'|]; [|done].
  cbn [mbind option_bind]. apply IH. intros k Hk. apply Hsame. lia.
Qed.

Lemma writeFrames_ext n : forall i st,
  numberOfChannels buffer1 = numberOfChannels buffer2 ->
  (forall ch j, 0 <= ch < numberOfChannels buffer1 -> i <= j < i + Z.of_nat n ->
                getChannelData buffer1 ch j = getChannelData buffer2 ch j) ->
  writeFrames buffer1 n i st = writeFrames buffer2 n i st.
Proof.
  induction n as [|n IH]; intros i st HC Hsame; [done|].
  cbn [writeFrames]. rewrite <- HC.
  rewrite (writeFrame_ext i (Z.to_nat (numberOfChannels buffer1)) 0 st)
    by (intros k Hk; apply Hsame; lia).
  destruct (writeFrame buffer2 i _ 0 st) as [st'|]; [|done].
  cbn [mbind option_bind]. apply IH; [done|].
  intros ch j Hch Hj. apply Hsame; lia.
Qed.

End Extensional.

(** X3.  The encoder reads no sample outside the channels and frames the
    buffer declares: two buffers of the same shape that agree on those
    samples are encoded to the same bytes. *)
Theorem encoder_reads_declared_samples_only (buffer1 buffer2 : AudioBuffer) :
  numberOfChannels buffer1 = numberOfChannels buffer2 ->
  length buffer1 = length buffer2 ->
  sampleRate buffer1 = sampleRate buffer2 ->
  (forall ch i, 0 <= ch < numberOfChannels buffer1 -> 0 <= i < length buffer1 ->
                getChannelData buffer1 ch i = getChannelData buffer2 ch i) ->
  audioBufferToWav buffer1 = audioBufferToWav buffer2.
Proof.
  intros HC HN HR Hsame. unfold audioBufferToWav, writeHeader.
  rewrite <- HC, <- HN, <- HR.
  match goal with |- (?h ≫= _) = _ => destruct h as [w|] end; [|done].
  cbn [mbind option_bind].
  rewrite (writeFrames_ext buffer1 buffer2 (Z.to_nat (length buffer1)) 0 (view w, 0) HC);
    [done|].
  intros ch i Hch Hi. apply Hsame; lia.
Qed.

Lemma encoder_reads_declared_samples_only_witness :
  audioBufferToWav (bufferOf 44100 1 [[0.25; 0.75]]%float)
  = audioBufferToWav (bufferOf 44100 1 [[0.25; -1]]%float).
Proof.
  apply encoder_reads_declared_samples_only; try reflexivity.
  intros ch i Hch Hi. cbn in Hch, Hi.
  assert (ch = 0) as -> by lia. assert (i = 0) as -> by lia. reflexivity.
Defined.



(** ** The router *)

(** X5.  disconnect() releases everything and is idempotent: afterwards no
    source is attached and no stream is owned, the source that was attached
    has no connection left, every track of the stream that was owned is
    stopped, and a second disconnect() changes nothing. *)
Theorem disconnect_releases_everything (g : UnifiedAudioGraph) :
  idle (disconnect g)
  /\ disconnect (disconnect g) = disconnect g
  /\ (forall n b, source g = Some n -> (n, b) ∉ connections (disconnect g))
  /\ (forall s t, activeStream g = Some s -> t ∈ getTracks s ->
                  trackId t ∈ stoppedTracks (disconnect g)).
Proof.
  split; [apply disconnect_idle|]. split; [apply disconnect_idempotent|]. split.
  - intros n b Hn Hedge. apply disconnect_connections in Hedge as [_ Hsrc]. done.
  - apply disconnect_stops.
Qed.

Section Exclusive.

Implicit Types (g : UnifiedAudioGraph) (c : Capture).

Lemma disconnect_exclusive g : exclusive g -> exclusive (disconnect g).
Proof.
  intros Hex a b Hedge. apply disconnect_connections in Hedge as [Hedge Hsrc].
  destruct (Hex a b Hedge) as [?|[? ?]]; [by left|done].
Qed.

Lemma resume_exclusive g : exclusive g -> exclusive (resume g).
Proof. unfold exclusive, resume. by destruct (suspended g). Qed.

Lemma attachStream_exclusive stream g :
  source g = None -> exclusive g -> exclusive (attachStream stream g).2.
Proof.
  intros Hnone Hex. unfold attachStream, createMediaStreamSource.
  destruct (getAudioTracks stream); cbn; [exact Hex|].
  intros a b Hedge. cbn in Hedge. unfold connectNode in Hedge.
  apply elem_of_union in Hedge as [Hedge | Hedge].
  - destruct (Hex a b Hedge) as [?|[Hsrc _]]; [by left|congruence].
  - apply elem_of_singleton in Hedge. injection Hedge as -> ->. by right.
Qed.

Lemma perform_exclusive g op : exclusive g -> exclusive (perform g op).
Proof.
  intros Hex0. pose proof (disconnect_exclusive g Hex0) as Hdis.
  pose proof (disconnect_exclusive _ (resume_exclusive g Hex0)) as Hex.
  pose proof (disconnect_source (resume g)) as Hnone.
  destruct op as [c|c|el|]; cbn.
  - unfold connectMicrophone. destruct c; try done. by apply attachStream_exclusive.
  - unfold connectSystemAudio. destruct c as [| |stream]; try done.
    destruct (getAudioTracks stream) eqn:Haudio; [done|].
    by apply attachStream_exclusive.
  - unfold connectElement. case_decide; [done|].
    intros a b Hedge. cbn in Hedge. unfold connectNode in Hedge.
    apply elem_of_union in Hedge as [Hedge | Hedge].
    + apply elem_of_union in Hedge as [Hedge | Hedge].
      * destruct (Hex a b Hedge) as [?|[Hsrc _]]; [by left|congruence].
      * apply elem_of_singleton in Hedge. injection Hedge as -> ->. by right.
    + apply elem_of_singleton in Hedge. injection Hedge as -> ->. by left.
  - exact Hdis.
Qed.

Lemma performAll_exclusive ops g : exclusive g -> exclusive (performAll ops g).
Proof.
  revert g. induction ops as [|op ops IH]; intros g Hex; [done|].
  cbn. by apply IH, perform_exclusive.
Qed.

(** Stopped tracks stay stopped, and tapped elements stay tapped. *)
Lemma disconnect_keeps g :
  stoppedTracks g ⊆ stoppedTracks (disconnect g)
  /\ tappedElements (disconnect g) = tappedElements g.
Proof.
  destruct g as [[?|] [?|] ? ? ? ?]; cbn; unfold stopAll; split;
    try done; apply union_subseteq_l.
Qed.

Lemma perform_keeps g op :
  stoppedTracks g ⊆ stoppedTracks (perform g op)
  /\ tappedElements g ⊆ tappedElements (perform g op).
Proof.
  destruct (resume_fields g) as (_ & _ & _ & Hst & Htap).
  destruct (disconnect_keeps (resume g)) as [Hs Ht]. rewrite Hst in Hs. rewrite Htap in Ht.
  assert (Hbase : stoppedTracks g ⊆ stoppedTracks (disconnect (resume g))
                  /\ tappedElements g ⊆ tappedElements (disconnect (resume g)))
    by (split; [exact Hs|by rewrite Ht]).
  assert (Hattach : forall stream,
            stoppedTracks g ⊆ stoppedTracks (attachStream stream (disconnect (resume g))).2
            /\ tappedElements g
               ⊆ tappedElements (attachStream stream (disconnect (resume g))).2).
  { intros stream. unfold attachStream.
    destruct (createMediaStreamSource stream); cbn; exact Hbase. }
  destruct op as [c|c|el|]; cbn.
  - unfold connectMicrophone. destruct c as [| |stream]; [exact Hbase..|apply Hattach].
  - unfold connectSystemAudio. destruct c as [| |stream]; [exact Hbase..|].
    destruct (getAudioTracks stream) eqn:Haudio; [|apply Hattach].
    cbn. split; [|apply Hbase]. unfold stopAll.
    etrans; [exact Hs|apply union_subseteq_l].
  - unfold connectElement. case_decide; [exact Hbase|].
    cbn. split; [exact Hs|]. rewrite Ht. apply union_subseteq_l.
  - destruct (disconnect_keeps g) as [? ->]. done.
Qed.

Lemma performAll_keeps ops g :
  stoppedTracks g ⊆ stoppedTracks (performAll ops g)
  /\ tappedElements g ⊆ tappedElements (performAll ops g).
Proof.
  revert g. induction ops as [|op ops IH]; intros g; [done|].
  cbn. destruct (perform_keeps g op) as [Hs Ht].
  destruct (IH (perform g op)) as [Hs' Ht'].
  split; etrans; eauto.
Qed.

End Exclusive.

Section Elements.

Implicit Types (g : UnifiedAudioGraph).

Lemma connectElement_taps el g : el ∈ tappedElements (connectElement el g).
Proof.
  unfold connectElement. case_decide; [done|].
  cbn. by apply elem_of_union_r, elem_of_singleton.
Qed.

Lemma connectElement_tapped el g :
  el ∈ tappedElements g -> connectElement el g = disconnect (resume g).
Proof.
  intros Htapped. unfold connectElement.
  destruct (disconnect_keeps (resume g)) as [_ Ht].
  destruct (resume_fields g) as (_ & _ & _ & _ & Hr).
  case_decide as Hin; [done|]. rewrite Ht, Hr in Hin. done.
Qed.

End Elements.

Section Overlap.

Implicit Types (g : UnifiedAudioGraph).

(** Calls that do not overlap are the operations run one after the other. *)
Lemma reactAll_eventsOf op g : reactAll (eventsOf op) g = perform g op.
Proof. destruct op as [[| |s]|[| |s]|el|]; reflexivity. Qed.

Lemma reactAll_unoverlapped ops g : reactAll (unoverlapped ops) g = performAll ops g.
Proof.
  revert g. induction ops as [|op ops IH]; intros g; [done|].
  unfold unoverlapped, reactAll in *. cbn [mbind list_bind].
  rewrite foldl_app. fold (reactAll (eventsOf op) g).
  rewrite reactAll_eventsOf. apply IH.
Qed.

Lemma attachStream_fields stream g :
  activeStream (attachStream stream g).2 = Some stream
  /\ stoppedTracks (attachStream stream g).2 = stoppedTracks g
  /\ tappedElements (attachStream stream g).2 = tappedElements g.
Proof. unfold attachStream. by destruct (createMediaStreamSource stream). Qed.

Lemma connectElement_attaches el g :
  el ∉ tappedElements g ->
  source (connectElement el g) = Some (MediaElementSource el)
  /\ feeds (connectElement el g) (MediaElementSource el) Analyser
  /\ feeds (connectElement el g) Analyser Destination
  /\ el ∈ tappedElements (connectElement el g).
Proof.
  intros Hfresh. split; [|split; [|split; [|apply connectElement_taps]]];
    unfold connectElement, feeds;
    destruct (disconnect_keeps (resume g)) as [_ Ht];
    destruct (resume_fields g) as (_ & _ & _ & _ & Hr);
    (case_decide as Hin; [by rewrite Ht, Hr in Hin|]); cbn; unfold connectNode.
  - done.
  - by apply elem_of_union_l, elem_of_union_r, elem_of_singleton.
  - by apply elem_of_union_r, elem_of_singleton.
Qed.

(** A media element connected while a microphone request is pending, and
    the microphone then granted. *)
Lemma element_during_microphone_request el stream g :
  el ∉ tappedElements g ->
  getAudioTracks stream <> [] ->
  let g' := reactAll [MicrophoneBegins true; ElementConnects el;
                      MicrophoneSettles (Allowed stream)] g in
  source g' = Some (MediaStreamSource (streamId stream))
  /\ feeds g' (MediaStreamSource (streamId stream)) Analyser
  /\ feeds g' (MediaElementSource el) Analyser
  /\ feeds g' Analyser Destination
  /\ el ∈ tappedElements g'.
Proof.
  intros Hfresh Haudio. cbn [reactAll foldl react].
  destruct (connect_begins true g) as [-> _]. cbn [snd].
  assert (Hfresh0 : el ∉ tappedElements (disconnect (resume g))).
  { destruct (disconnect_keeps (resume g)) as [_ ->].
    by destruct (resume_fields g) as (_ & _ & _ & _ & ->). }
  destruct (connectElement_attaches el _ Hfresh0) as (_ & Hel & Hout & Htap).
  set (g1 := connectElement el (disconnect (resume g))) in *.
  unfold connectMicrophoneSettle.
  destruct (attachStream_fields stream g1) as (_ & _ & Htapped).
  destruct (attachStream_success stream g1 Haudio) as (g2 & Hg2 & Hsrc & _ & Hconn).
  rewrite Hg2 in *. cbn [snd] in *. unfold feeds in *. rewrite Hconn, Htapped.
  unfold connectNode.
  split; [done|]. split; [by apply elem_of_union_r, elem_of_singleton|].
  split; [by apply elem_of_union_l|]. split; [by apply elem_of_union_l|done].
Qed.

End Overlap.

(** X6.  Exclusivity holds of calls that do not overlap, and only of them.
    When every call has returned before the next one is issued, the only
    connections are the analyser's link to the destination and the link
    from the current source to the analyser, so one source at most feeds
    the analyser.  But a media element connected while a microphone request
    is pending stays connected when the microphone is granted: two sources
    then feed the analyser. *)
Theorem exclusive_unless_calls_overlap :
  (forall ops n m,
     let g := reactAll (unoverlapped ops) newGraph in
     exclusive g
     /\ (feeds g n Analyser -> source g = Some n)
     /\ (feeds g n Analyser -> feeds g m Analyser -> n = m))
  /\ (forall g el stream,
        el ∉ tappedElements g ->
        getAudioTracks stream <> [] ->
        let g' := reactAll [MicrophoneBegins true; ElementConnects el;
                            MicrophoneSettles (Allowed stream)] g in
        source g' = Some (MediaStreamSource (streamId stream))
        /\ feeds g' (MediaStreamSource (streamId stream)) Analyser
        /\ feeds g' (MediaElementSource el) Analyser
        /\ ~ exclusive g').
Proof.
  split.
  - intros ops n m g. subst g. rewrite reactAll_unoverlapped.
    assert (Hex : exclusive (performAll ops newGraph)).
    { apply performAll_exclusive. intros a b Hedge. by apply not_elem_of_empty in Hedge. }
    assert (Hsrc : forall k, feeds (performAll ops newGraph) k Analyser ->
                             source (performAll ops newGraph) = Some k).
    { intros k Hk. destruct (Hex k Analyser Hk) as [[_ [=]]|[? _]]. done. }
    split; [exact Hex|]. split; [apply Hsrc|].
    intros Hn Hm. apply Hsrc in Hn, Hm. congruence.
  - intros g el stream Hfresh Haudio g'.
    destruct (element_during_microphone_request el stream g Hfresh Haudio)
      as (Hsrc & Hmic & Hel & _).
    fold g' in Hsrc, Hmic, Hel.
    split; [done|]. split; [done|]. split; [done|].
    intros Hex. destruct (Hex _ _ Hel) as [[[=] _] | [Hs _]]. congruence.
Qed.

Lemma exclusive_unless_calls_overlap_witness :
  let g' := reactAll [MicrophoneBegins true; ElementConnects 7;
                      MicrophoneSettles (Allowed micStream)] newGraph in
  feeds g' (MediaStreamSource (streamId micStream)) Analyser
  /\ feeds g' (MediaElementSource 7) Analyser
  /\ ~ exclusive g'.
Proof.
  destruct exclusive_unless_calls_overlap as [_ Hoverlap].
  destruct (Hoverlap newGraph 7%nat micStream) as (_ & Hmic & Hel & Hex).
  - apply not_elem_of_empty.
  - discriminate.
  - split; [exact Hmic|]. split; [exact Hel|exact Hex].
Defined.

Section Ownership.

Implicit Types (g : UnifiedAudioGraph) (s : MediaStream).

Lemma accountedFor_stopped g g' s :
  (forall t, t ∈ getTracks s -> trackId t ∈ stoppedTracks g) ->
  stoppedTracks g ⊆ stoppedTracks g' ->
  accountedFor g' s.
Proof. intros Hs Hsub. right. intros t Ht. apply Hsub, Hs, Ht. Qed.

(** Every operation starts by releasing the stream the router owns. *)
Lemma perform_releases g op s :
  activeStream g = Some s ->
  forall t, t ∈ getTracks s -> trackId t ∈ stoppedTracks (perform g op).
Proof.
  intros Hs t Ht.
  assert (Hdis : trackId t ∈ stoppedTracks (disconnect (resume g))).
  { apply (disconnect_stops (resume g) s); [|done].
    destruct (resume_fields g) as (_ & -> & _). done. }
  assert (Hattach : forall stream,
            trackId t ∈ stoppedTracks (attachStream stream (disconnect (resume g))).2).
  { intros stream. unfold attachStream.
    by destruct (createMediaStreamSource stream). }
  destruct op as [c|c|el|]; cbn.
  - unfold connectMicrophone. destruct c; [done..|apply Hattach].
  - unfold connectSystemAudio. destruct c as [| |stream]; [done..|].
    destruct (getAudioTracks stream); [|apply Hattach].
    cbn. unfold stopAll. by apply elem_of_union_l.
  - unfold connectElement. by case_decide.
  - by apply (disconnect_stops g s).
Qed.

Lemma perform_accountedFor g op s : accountedFor g s -> accountedFor (perform g op) s.
Proof.
  intros [Hown | Hstopped].
  - right. by apply perform_releases.
  - eapply accountedFor_stopped; [exact Hstopped|apply perform_keeps].
Qed.

Lemma perform_grants g op s : grants op s -> accountedFor (perform g op) s.
Proof.
  intros [-> | ->]; cbn.
  - left. unfold connectMicrophone, attachStream.
    by destruct (createMediaStreamSource s).
  - unfold connectSystemAudio. destruct (getAudioTracks s) eqn:Haudio.
    + right. intros t Ht. cbn. unfold stopAll.
      apply elem_of_union_r, elem_of_list_to_set, list_elem_of_fmap. eauto.
    + left. unfold attachStream. by destruct (createMediaStreamSource s).
Qed.

Lemma performAll_accountedFor ops g s :
  accountedFor g s -> accountedFor (performAll ops g) s.
Proof.
  revert g. induction ops as [|op ops IH]; intros g Hg; [done|].
  cbn. by apply IH, perform_accountedFor.
Qed.

End Ownership.

(** X7.  No capture is leaked by calls that do not overlap: after any
    sequence of calls, each returned before the next is issued, every stream
    that a connectMicrophone or connectSystemAudio was granted is either the
    stream the router owns now or has all its tracks stopped.  Overlapping
    calls do leak: of two microphone requests pending together, the stream
    granted first is overwritten by the second and is neither owned nor
    stopped. *)
Theorem no_capture_leaks_unless_calls_overlap :
  (forall ops g s,
     Exists (fun op => grants op s) ops ->
     accountedFor (reactAll (unoverlapped ops) g) s)
  /\ (forall g s1 s2 t,
        idle g ->
        s1 <> s2 ->
        t ∈ getTracks s1 ->
        trackId t ∉ stoppedTracks g ->
        let g' := reactAll [MicrophoneBegins true; MicrophoneBegins true;
                            MicrophoneSettles (Allowed s1);
                            MicrophoneSettles (Allowed s2)] g in
        activeStream g' = Some s2
        /\ (trackId t ∉ stoppedTracks g')
        /\ ~ accountedFor g' s1).
Proof.
  split.
  - intros ops g s. rewrite reactAll_unoverlapped.
    revert g. induction ops as [|op ops IH]; intros g Hgrant.
    + by apply Exists_nil in Hgrant.
    + cbn. apply Exists_cons in Hgrant as [Hop | Hlater].
      * by apply performAll_accountedFor, perform_grants.
      * by apply IH.
  - intros g s1 s2 t Hidle Hdiff Ht Hlive g'. subst g'.
    cbn [reactAll foldl react].
    assert (Hbegin : forall g0, idle g0 ->
              idle (connectMicrophoneBegin true g0).2
              /\ stoppedTracks (connectMicrophoneBegin true g0).2 = stoppedTracks g0).
    { intros g0 Hg0. destruct (connect_begins true g0) as [-> _]. cbn [snd].
      split; [apply disconnect_idle|].
      assert (Hres : idle (resume g0)).
      { unfold idle, routerState in *.
        by destruct (resume_fields g0) as (-> & -> & _). }
      rewrite (disconnect_of_idle _ Hres).
      by destruct (resume_fields g0) as (_ & _ & _ & -> & _). }
    destruct (Hbegin g Hidle) as [Hidle1 Hstop1].
    destruct (Hbegin _ Hidle1) as [_ Hstop2].
    unfold connectMicrophoneSettle.
    set (g2 := (connectMicrophoneBegin true (connectMicrophoneBegin true g).2).2) in *.
    destruct (attachStream_fields s1 g2) as (_ & Hst1 & _).
    destruct (attachStream_fields s2 (attachStream s1 g2).2) as (Hown & Hst2 & _).
    assert (Hstopped : trackId t ∉ stoppedTracks (attachStream s2 (attachStream s1 g2).2).2)
      by (rewrite Hst2, Hst1, Hstop2, Hstop1; done).
    split; [done|]. split; [done|].
    intros [Howned | Hall]; [congruence|]. by apply Hstopped, Hall.
Qed.

Lemma no_capture_leaks_unless_calls_overlap_witness :
  let second := {| streamId := 3; getTracks := [ {| trackId := 30; kind := AudioTrack |} ] |} in
  ~ accountedFor
      (reactAll [MicrophoneBegins true; MicrophoneBegins true;
                 MicrophoneSettles (Allowed micStream);
                 MicrophoneSettles (Allowed second)] newGraph) micStream.
Proof.
  intros second.
  destruct no_capture_leaks_unless_calls_overlap as [_ Hoverlap].
  destruct (Hoverlap newGraph micStream second {| trackId := 10; kind := AudioTrack |})
    as (_ & _ & Hleak).
  - split; reflexivity.
  - discriminate.
  - apply list_elem_of_singleton. reflexivity.
  - apply not_elem_of_empty.
  - exact Hleak.
Defined.

(** X8.  A connect succeeds exactly when a stream with an audio track is
    granted; the router then holds that stream and a source made from it,
    and this source feeds the analyser. *)
Theorem connect_succeeds_iff (c : Capture) (g : UnifiedAudioGraph) :
  let granted_audio := exists s, c = Granted s /\ getAudioTracks s <> [] in
  let attached g' :=
    forall s, c = Granted s ->
      routerState g' = (Some (MediaStreamSource (streamId s)), Some s)
      /\ feeds g' (MediaStreamSource (streamId s)) Analyser in
  ((connectMicrophone c g).1 = true <-> granted_audio)
  /\ ((connectSystemAudio c g).1 = true <-> granted_audio)
  /\ ((connectMicrophone c g).1 = true -> attached (connectMicrophone c g).2)
  /\ ((connectSystemAudio c g).1 = true -> attached (connectSystemAudio c g).2).
Proof.
  intros granted_audio attached. subst granted_audio attached.
  assert (Hattach : forall s g0,
            ((attachStream s g0).1 = true <-> getAudioTracks s <> [])
            /\ ((attachStream s g0).1 = true ->
                routerState (attachStream s g0).2
                = (Some (MediaStreamSource (streamId s)), Some s)
                /\ feeds (attachStream s g0).2 (MediaStreamSource (streamId s)) Analyser)).
  { intros s g0. unfold attachStream, createMediaStreamSource.
    destruct (getAudioTracks s); cbn; (split; [split|]); try done.
    intros _. split; [done|]. unfold feeds, connectNode. cbn.
    by apply elem_of_union_r, elem_of_singleton. }
  unfold connectMicrophone, connectSystemAudio.
  destruct c as [| |s]; cbn.
  - repeat split; try done; by intros (? & ? & ?).
  - repeat split; try done; by intros (? & ? & ?).
  - destruct (Hattach s (disconnect (resume g))) as [Hiff Hthen].
    assert (Hsys : getAudioTracks s <> [] ->
              match getAudioTracks s with
              | [] => (false,
                       {| source := source (disconnect (resume g));
                          activeStream := activeStream (disconnect (resume g));
                          suspended := suspended (disconnect (resume g));
                          connections := connections (disconnect (resume g));
                          stoppedTracks :=
                            stopAll (getTracks s) (stoppedTracks (disconnect (resume g)));
                          tappedElements := tappedElements (disconnect (resume g)) |})
              | _ :: _ => attachStream s (disconnect (resume g))
              end = attachStream s (disconnect (resume g)))
      by (by destruct (getAudioTracks s)).
    split; [|split; [|split]].
    + rewrite Hiff. split; [by exists s|]. by intros (s' & [= <-] & ?).
    + split.
      * destruct (getAudioTracks s) eqn:Haudio; [done|]. intros _.
        exists s. split; [done|]. by rewrite Haudio.
      * intros (s' & [= <-] & Haudio). rewrite Hsys by done. by apply Hiff.
    + intros Hok s' [= <-]. by apply Hthen.
    + intros Hok s' [= <-].
      destruct (getAudioTracks s) eqn:Haudio; [done|].
      apply Hthen. apply Hiff. first [done | by rewrite Haudio].
Qed.

(** X9.  Connecting a media element a second time does not restore it:
    createMediaElementSource throws for an element that already has a source
    node, after disconnect() has run.  When no calls overlap the router ends
    idle and the element neither feeds the analyser nor reaches the output
    through the graph.  When the first connect ran during a pending
    microphone request that was then granted, the router ends idle as well,
    but the element's node was never disconnected: it still feeds the
    analyser and is heard. *)
Theorem second_connect_of_an_element :
  (forall before between el,
     let g := reactAll (unoverlapped (before ++ OpConnectElement el :: between)) newGraph in
     idle (connectElement el g)
     /\ (forall b, ~ feeds (connectElement el g) (MediaElementSource el) b)
     /\ ~ audible (connectElement el g) (MediaElementSource el))
  /\ (forall g el stream,
        el ∉ tappedElements g ->
        getAudioTracks stream <> [] ->
        let g' := reactAll [MicrophoneBegins true; ElementConnects el;
                            MicrophoneSettles (Allowed stream); ElementConnects el] g in
        idle g'
        /\ feeds g' (MediaElementSource el) Analyser
        /\ audible g' (MediaElementSource el)).
Proof.
  split.
  - intros before between el g. subst g. rewrite reactAll_unoverlapped.
    set (g := performAll (before ++ OpConnectElement el :: between) newGraph).
    assert (Hg : g = performAll between (connectElement el (performAll before newGraph))).
    { subst g. unfold performAll. by rewrite foldl_app. }
    assert (Htapped : el ∈ tappedElements g).
    { rewrite Hg. apply performAll_keeps, connectElement_taps. }
    assert (Hex : exclusive g).
    { subst g. apply performAll_exclusive.
      intros a b Hedge. by apply not_elem_of_empty in Hedge. }
    rewrite connectElement_tapped by done.
    assert (Hnone : forall b, ~ feeds (disconnect (resume g)) (MediaElementSource el) b).
    { intros b Hedge.
      apply (disconnect_exclusive _ (resume_exclusive g Hex)) in Hedge.
      rewrite disconnect_source in Hedge. by destruct Hedge as [[[=] _]|[[=] _]]. }
    split; [apply disconnect_idle|]. split; [exact Hnone|].
    intros Ha. apply rtc_inv in Ha as [[=] | (m & Hedge & _)]. by apply (Hnone m).
  - intros g el stream Hfresh Haudio g'.
    destruct (element_during_microphone_request el stream g Hfresh Haudio)
      as (Hsrc & _ & Hel & Hout & Htap).
    set (g3 := reactAll [MicrophoneBegins true; ElementConnects el;
                         MicrophoneSettles (Allowed stream)] g) in *.
    assert (Hg' : g' = disconnect (resume g3)).
    { subst g'. change (connectElement el g3 = disconnect (resume g3)).
      by apply connectElement_tapped. }
    destruct (opening_disconnect g3) as (Hidle & _ & _ & Hedges).
    rewrite Hg'. split; [exact Hidle|].
    assert (Hel' : feeds (disconnect (resume g3)) (MediaElementSource el) Analyser).
    { apply Hedges. split; [done|]. by rewrite Hsrc. }
    assert (Hout' : feeds (disconnect (resume g3)) Analyser Destination).
    { apply Hedges. split; [done|]. by rewrite Hsrc. }
    split; [done|]. eapply rtc_l; [exact Hel'|]. by apply rtc_once.
Qed.

Lemma second_connect_of_an_element_witness :
  let g' := reactAll [MicrophoneBegins true; ElementConnects 7;
                      MicrophoneSettles (Allowed micStream); ElementConnects 7] newGraph in
  idle g' /\ audible g' (MediaElementSource 7).
Proof.
  destruct second_connect_of_an_element as [_ Hoverlap].
  destruct (Hoverlap newGraph 7%nat micStream) as (Hidle & _ & Hheard).
  - apply not_elem_of_empty.
  - discriminate.
  - split; [exact Hidle|exact Hheard].
Defined.

(** X10.  Without a connectElement nothing that is attached is ever heard:
    after any sequence of microphone connects, system-audio connects and
    disconnects, no node of the graph reaches the destination. *)
Theorem nothing_audible_without_element (ops : list RouterOp) (n : AudioNode) :
  Forall (fun op => ~ isConnectElement op) ops ->
  n <> Destination ->
  ~ audible (performAll ops newGraph) n.
Proof.
  intros Hops Hn. apply muted_inaudible; [|done].
  apply performAll_muted; [done|]. intros m. apply not_elem_of_empty.
Qed.

Lemma nothing_audible_without_element_witness :
  ~ audible
      (performAll [OpConnectMicrophone (Granted micStream); OpDisconnect;
                   OpConnectSystemAudio (Granted micStream)] newGraph)
      (MediaStreamSource (streamId micStream)).
Proof.
  apply nothing_audible_without_element.
  - repeat constructor; cbn; tauto.
  - discriminate.
Defined.

(** X11.  A media element connected for the first time is attached, feeds
    the analyser, and is heard: the analyser is connected on to the
    destination.  No stream is owned afterwards. *)
Theorem first_connect_of_an_element_is_heard (el : nat) (g : UnifiedAudioGraph) :
  el ∉ tappedElements g ->
  routerState (connectElement el g) = (Some (MediaElementSource el), None)
  /\ feeds (connectElement el g) (MediaElementSource el) Analyser
  /\ audible (connectElement el g) (MediaElementSource el).
Proof.
  intros Hfresh. unfold connectElement.
  destruct (disconnect_keeps (resume g)) as [_ Ht].
  destruct (resume_fields g) as (_ & _ & _ & _ & Hr).
  pose proof (disconnect_idle (resume g)) as Hidle. unfold idle, routerState in Hidle.
  case_decide as Hin; [by rewrite Ht, Hr in Hin|].
  assert (Hedge : forall E,
            (MediaElementSource el, Analyser)
            ∈ connectNode Analyser Destination
                (connectNode (MediaElementSource el) Analyser E)).
  { intros E. unfold connectNode.
    by apply elem_of_union_l, elem_of_union_r, elem_of_singleton. }
  unfold routerState, feeds, audible. cbn.
  split; [congruence|]. split; [apply Hedge|].
  eapply rtc_l; [apply Hedge|]. apply rtc_once. unfold feeds. cbn.
  unfold connectNode. by apply elem_of_union_r, elem_of_singleton.
Qed.

Lemma first_connect_of_an_element_is_heard_witness :
  routerState (connectElement 7 newGraph) = (Some (MediaElementSource 7), None)
  /\ feeds (connectElement 7 newGraph) (MediaElementSource 7) Analyser
  /\ audible (connectElement 7 newGraph) (MediaElementSource 7).
Proof.
  apply (first_connect_of_an_element_is_heard 7 newGraph). apply not_elem_of_empty.
Defined.

(** ** The derived features *)

Section Features.

Lemma sumBins_none data bins :
  foldl (λ sum i, s ← sum; v ← readBin data i; Some (s + v)) None bins = None.
Proof. induction bins; [done|by cbn]. Qed.

Lemma sumBins_shift data bins : forall a b,
  foldl (λ sum i, s ← sum; v ← readBin data i; Some (s + v)) (Some (a + b)) bins
  = (s ← foldl (λ sum i, s ← sum; v ← readBin data i; Some (s + v)) (Some b) bins;
     Some (a + s)).
Proof.
  induction bins as [|i bins IH]; intros a b; [done|].
  cbn [foldl]. cbn [mbind option_bind].
  destruct (readBin data i) as [v|]; cbn [mbind option_bind].
  - rewrite <- Z.add_assoc. apply IH.
  - by rewrite !sumBins_none.
Qed.

Lemma sumBins_cons data i bins :
  sumBins data (i :: bins) = (v ← readBin data i; s ← sumBins data bins; Some (v + s)).
Proof.
  unfold sumBins. cbn [foldl]. cbn [mbind option_bind].
  destruct (readBin data i) as [v|]; cbn [mbind option_bind].
  - replace (0 + v) with (v + 0) by lia. apply sumBins_shift.
  - apply sumBins_none.
Qed.

Lemma sumBins_ext data data' bins :
  Forall (fun i => readBin data i = readBin data' i) bins ->
  sumBins data bins = sumBins data' bins.
Proof.
  induction 1 as [|i bins Hi _ IH]; [done|].
  by rewrite !sumBins_cons, Hi, IH.
Qed.

(** Summing every index of an array gives its total. *)
Lemma sumBins_all pre data :
  sumBins (pre ++ data) (seqZ (Z.of_nat (List.length pre)) (Z.of_nat (List.length data)))
  = Some (sumOf data).
Proof.
  revert pre. induction data as [|x data IH]; intros pre; [done|].
  cbn [List.length]. rewrite Nat2Z.inj_succ, seqZ_cons by lia.
  rewrite sumBins_cons.
  assert (readBin (pre ++ x :: data) (Z.of_nat (List.length pre)) = Some x) as ->.
  { unfold readBin. destruct (Z.ltb_spec (Z.of_nat (List.length pre)) 0); [lia|].
    rewrite Nat2Z.id. by rewrite list_lookup_middle. }
  cbn [mbind option_bind].
  replace (Z.succ (Z.of_nat (List.length pre))) with (Z.of_nat (List.length (pre ++ [x])))
    by (rewrite length_app; cbn; lia).
  replace (Z.pred (Z.succ (Z.of_nat (List.length data))))
    with (Z.of_nat (List.length data)) by lia.
  rewrite (cons_middle x pre data), app_assoc, IH. reflexivity.
Qed.

Lemma sumOf_bounds data :
  Forall (fun v => 0 <= v <= 255) data ->
  0 <= sumOf data <= 255 * Z.of_nat (List.length data).
Proof.
  induction 1 as [|v data Hv _ IH]; cbn [sumOf foldr List.length]; [lia|].
  fold (sumOf data). lia.
Qed.

End Features.

(** X12.  getAverageFrequency is NaN on an empty spectrum; on any other
    array of byte magnitudes it is the total divided by the number of bins,
    a value between 0 and 255. *)
Theorem getAverageFrequency_mean (data : list Z) :
  Forall (fun v => 0 <= v <= 255) data ->
  (data = [] -> getAverageFrequency data = None)
  /\ (data <> [] ->
      exists e,
        getAverageFrequency data = Some e
        /\ (e * inject_Z (Z.of_nat (List.length data)) == inject_Z (sumOf data))%Q
        /\ (0 <= e <= 255)%Q).
Proof.
  intros Hbytes. split; [by intros ->|]. intros Hne.
  unfold getAverageFrequency.
  pose proof (sumBins_all [] data) as Hall.
  change (sumBins data (seqZ 0 (Z.of_nat (List.length data))) = Some (sumOf data)) in Hall.
  rewrite Hall. cbn [mbind option_bind].
  assert (Hlen : (0 < List.length data)%nat) by (destruct data; [done|cbn; lia]).
  case_decide; [lia|]. eexists; split; [reflexivity|].
  pose proof (sumOf_bounds data Hbytes) as Hsum.
  assert (Hpos : (0 < inject_Z (Z.of_nat (List.length data)))%Q).
  { rewrite <- (Zlt_Qlt 0). lia. }
  split; [|split].
  - field. intros Hzero. rewrite Hzero in Hpos. by apply Qlt_irrefl in Hpos.
  - apply Qle_shift_div_l; [done|]. rewrite Qmult_0_l, <- (Zle_Qle 0). lia.
  - apply Qle_shift_div_r; [done|].
    change 255%Q with (inject_Z 255). rewrite <- inject_Z_mult, <- Zle_Qle. lia.
Qed.

Lemma getAverageFrequency_mean_witness :
  (fullScale = [] -> getAverageFrequency fullScale = None)
  /\ (fullScale <> [] ->
      exists e,
        getAverageFrequency fullScale = Some e
        /\ (e * inject_Z (Z.of_nat (List.length fullScale)) == inject_Z (sumOf fullScale))%Q
        /\ (0 <= e <= 255)%Q).
Proof.
  apply (getAverageFrequency_mean fullScale). apply Forall_replicate. lia.
Defined.

(** X13.  getBassEnergy is a number exactly when the spectrum has at least
    9 bins, and it depends on bins 1 to 8 alone: the DC bin and the bins
    from 9 on never matter. *)
Theorem getBassEnergy_reads_bins_1_to_8 (data data' : list Z) :
  (is_Some (getBassEnergy data) <-> (9 <= List.length data)%nat)
  /\ ((forall i, (1 <= i <= 8)%nat -> data !! i = data' !! i) ->
      getBassEnergy data = getBassEnergy data').
Proof.
  split.
  - destruct data as [|d0 [|d1 [|d2 [|d3 [|d4 [|d5 [|d6 [|d7 [|d8 rest]]]]]]]]];
      cbn [List.length];
      (split; [intros [e He]; try discriminate He; lia | intros Hlen; try lia; by eexists]).
  - intros Hsame. unfold getBassEnergy.
    rewrite (sumBins_ext data data'); [done|].
    apply Forall_seqZ. intros i Hi. unfold readBin.
    destruct (Z.ltb_spec i 0); [lia|]. apply Hsame. lia.
Qed.

(** ** The bars *)

Section Maximum.

Variable dataArray : list Z.

Let len := Z.of_nat (List.length dataArray).

(** The scan returns the larger of its starting value and the largest
    magnitude of the span that lies inside the array. *)
Lemma scanSpan_max bound fuel :
  forall j acc,
    (Z.to_nat (bound - j) <= fuel)%nat ->
    exists s,
      scanSpan fuel dataArray bound j acc = Some s
      /\ maxVal acc <= maxVal s
      /\ (forall k v, j <= k < Z.min bound len -> readBin dataArray k = Some v ->
                      v <= maxVal s)
      /\ (maxVal s = maxVal acc
          \/ exists k, j <= k < Z.min bound len /\ readBin dataArray k = Some (maxVal s)).
Proof.
  induction fuel as [|fuel IH]; intros j acc Hfuel.
  - exists acc. cbn [scanSpan].
    destruct (Z.ltb_spec j bound); [lia|]. cbn.
    split; [done|]. split; [lia|]. split; [intros; lia|by left].
  - cbn [scanSpan].
    destruct (Z.ltb_spec j bound) as [Hb|Hb]; cbn [andb];
      [|exists acc; split; [done|]; split; [lia|]; split; [intros; lia|by left]].
    destruct (Z.ltb_spec j (Z.of_nat (List.length dataArray))) as [Hl|Hl];
      [|exists acc; split; [done|]; split; [lia|]; split; [intros; subst len; lia|by left]].
    match goal with |- context [scanSpan fuel dataArray bound (j + 1) ?a] =>
      set (acc' := a) end.
    assert (Hacc' : maxVal acc <= maxVal acc'
                    /\ (forall v, readBin dataArray j = Some v -> v <= maxVal acc')
                    /\ (maxVal acc' = maxVal acc
                        \/ readBin dataArray j = Some (maxVal acc'))).
    { subst acc'. destruct (readBin dataArray j) as [v|].
      - destruct (Z.ltb_spec (maxVal acc) v); cbn.
        + split; [lia|]. split; [by intros ? [= <-]|by right].
        + split; [lia|]. split; [intros ? [= <-]; lia|by left].
      - cbn. split; [lia|]. split; [done|by left]. }
    destruct Hacc' as (Hge & Hj & Hatt).
    destruct (IH (j + 1) acc') as (s & Hs & Hmono & Hall & Hattained); [lia|].
    exists s. split; [exact Hs|]. split; [lia|]. split.
    + intros k v Hk Hv. destruct (Z.eq_dec k j) as [->|Hkj].
      * specialize (Hj v Hv). lia.
      * apply (Hall k v); [lia|done].
    + destruct Hattained as [Heq | (k & Hk & Hv)].
      * rewrite Heq. destruct Hatt as [-> | Hv]; [by left|].
        right. exists j. split; [subst len; lia|done].
      * right. exists k. split; [lia|done].
Qed.

End Maximum.

(** X14.  The height of a bar shows the largest magnitude of its span: bar
    i is drawn with height m / 255 of the canvas height, from the bottom
    edge, where m bounds every magnitude of the span inside the array and is
    one of them, or 0 when none is positive. *)
Theorem bar_height_is_span_maximum (bars binCount : Z) (dataArray : list Z)
    (width height : Q) (i : Z) :
  1 <= bars ->
  1 <= binCount ->
  0 <= i ->
  let start := startBin bars (binCount - 1) i in
  let stop := Z.min (safeEndBin bars (binCount - 1) i) (Z.of_nat (List.length dataArray)) in
  exists r js m,
    drawBar bars binCount dataArray width height i = Some (r, js)
    /\ rh r = (inject_Z m / 255 * height)%Q
    /\ ry r = (height - rh r)%Q
    /\ 0 <= m
    /\ (forall k v, start <= k < stop -> readBin dataArray k = Some v -> v <= m)
    /\ (m = 0 \/ exists k, start <= k < stop /\ readBin dataArray k = Some m).
Proof.
  intros Hbars HbinCount Hi start stop. unfold drawBar.
  destruct (scanSpan_max dataArray (safeEndBin bars (binCount - 1) i)
              (Z.to_nat (safeEndBin bars (binCount - 1) i - startBin bars (binCount - 1) i))
              (startBin bars (binCount - 1) i) {| maxVal := 0; reads := [] |})
    as (s & -> & Hge & Hall & Hatt); [lia|].
  cbn [mbind option_bind maxVal] in *.
  eexists _, _, (maxVal s). split; [reflexivity|]. cbn [rh ry].
  repeat split; try done.
Qed.

Lemma bar_height_is_span_maximum_witness :
  let start := startBin 64 (2048 - 1) 63 in
  let stop := Z.min (safeEndBin 64 (2048 - 1) 63) (Z.of_nat (List.length onlyBin8)) in
  exists r js m,
    drawBar 64 2048 onlyBin8 640 100 63 = Some (r, js)
    /\ rh r = (inject_Z m / 255 * 100)%Q
    /\ ry r = (100 - rh r)%Q
    /\ 0 <= m
    /\ (forall k v, start <= k < stop -> readBin onlyBin8 k = Some v -> v <= m)
    /\ (m = 0 \/ exists k, start <= k < stop /\ readBin onlyBin8 k = Some m).
Proof. apply (bar_height_is_span_maximum 64 2048 onlyBin8 640 100 63); lia. Defined.

Section Geometry.

Variables (dataArray : list Z) (width height : Q).
Hypothesis Hbytes : Forall (fun v => 0 <= v <= 255) dataArray.
Hypothesis Hwidth : (0 <= width)%Q.
Hypothesis Hheight : (0 <= height)%Q.

Lemma readBin_byte k v : readBin dataArray k = Some v -> 0 <= v <= 255.
Proof.
  unfold readBin. destruct (k <? 0); [done|]. intros Hv.
  apply list_elem_of_lookup_2 in Hv. by apply (proj1 (Forall_forall _ _) Hbytes).
Qed.

Lemma scaled_height (m : Z) :
  0 <= m <= 255 ->
  (0 <= inject_Z m / 255 * height <= height)%Q.
Proof.
  intros Hm.
  assert (Hq : (0 <= inject_Z m / 255 <= 1)%Q).
  { split.
    - apply Qle_shift_div_l; [reflexivity|]. rewrite Qmult_0_l, <- (Zle_Qle 0). lia.
    - apply Qle_shift_div_r; [reflexivity|].
      change (1 * 255)%Q with (inject_Z 255). rewrite <- Zle_Qle. lia. }
  set (q := (inject_Z m / 255)%Q) in *. nra.
Qed.

Lemma drawBar_geometry i :
  0 <= i < numBars ->
  exists r js,
    drawBar numBars frequencyBinCount dataArray width height i = Some (r, js)
    /\ (0 <= rh r <= height)%Q /\ (0 <= ry r <= height)%Q
    /\ (1 # 2 <= rw r)%Q /\ (0 <= rx r <= width)%Q.
Proof.
  intros Hi. unfold drawBar.
  destruct (scanSpan_max dataArray (safeEndBin numBars (frequencyBinCount - 1) i)
              (Z.to_nat (safeEndBin numBars (frequencyBinCount - 1) i
                         - startBin numBars (frequencyBinCount - 1) i))
              (startBin numBars (frequencyBinCount - 1) i) {| maxVal := 0; reads := [] |})
    as (s & -> & Hge & _ & Hatt); [lia|].
  cbn [mbind option_bind maxVal] in *.
  eexists _, _. split; [reflexivity|]. cbn [rh ry rw rx].
  assert (Hm : 0 <= maxVal s <= 255).
  { destruct Hatt as [-> | (k & _ & Hk)]; [lia|]. by apply readBin_byte in Hk. }
  pose proof (scaled_height (maxVal s) Hm) as Hh.
  split; [exact Hh|]. split; [nra|]. split; [apply Q.le_max_l|].
  assert (Hqi : (0 <= inject_Z i <= 512)%Q).
  { change 0%Q with (inject_Z 0). change 512%Q with (inject_Z 512).
    rewrite <- !Zle_Qle. unfold numBars in Hi. lia. }
  change (inject_Z numBars) with 512%Q.
  set (qi := inject_Z i) in *.
  assert (Hunit : (width / 512 == width * (1 # 512))%Q) by (by field).
  rewrite Hunit. nra.
Qed.

End Geometry.

(** X15.  With a 2D context drawBars draws 512 bars, and for byte
    magnitudes on a canvas of non-negative size every bar stays on the
    canvas vertically and starts inside it horizontally: its height and its
    top edge lie between 0 and the canvas height, its left edge between 0
    and the canvas width, and it is at least half a pixel wide. *)
Theorem bars_stay_on_the_canvas (dataArray : list Z) (width height : Q) :
  Forall (fun v => 0 <= v <= 255) dataArray ->
  (0 <= width)%Q ->
  (0 <= height)%Q ->
  exists drawn,
    drawBars true dataArray width height = Some drawn
    /\ List.length drawn = 512%nat
    /\ Forall (fun bar =>
                 (0 <= rh bar.1 <= height)%Q /\ (0 <= ry bar.1 <= height)%Q
                 /\ (1 # 2 <= rw bar.1)%Q /\ (0 <= rx bar.1 <= width)%Q) drawn.
Proof.
  intros Hbytes Hwidth Hheight. cbn [drawBars].
  assert (Hall : Forall (fun i =>
                   exists bar,
                     drawBar numBars frequencyBinCount dataArray width height i = Some bar
                     /\ (0 <= rh bar.1 <= height)%Q /\ (0 <= ry bar.1 <= height)%Q
                     /\ (1 # 2 <= rw bar.1)%Q /\ (0 <= rx bar.1 <= width)%Q)
                   (seqZ 0 numBars)).
  { apply Forall_seqZ. intros i Hi.
    destruct (drawBar_geometry dataArray width height Hbytes Hwidth Hheight i)
      as (r & js & Hr & Hgeo); [lia|].
    by exists (r, js). }
  assert (Hsome : is_Some (mapM (drawBar numBars frequencyBinCount dataArray width height)
                             (seqZ 0 numBars))).
  { apply mapM_is_Some. eapply Forall_impl; [exact Hall|].
    intros i (bar & Hbar & _). cbn. by rewrite Hbar. }
  destruct Hsome as [drawn Hdrawn]. exists drawn. split; [exact Hdrawn|].
  apply mapM_Some_1 in Hdrawn. split.
  - apply Forall2_length in Hdrawn. rewrite <- Hdrawn, length_seqZ. reflexivity.
  - eapply Forall2_Forall_r; [exact Hdrawn|].
    eapply Forall_impl; [exact Hall|].
    intros i (bar' & Hbar' & Hgeo) bar Hbar. congruence.
Qed.

Lemma bars_stay_on_the_canvas_witness :
  exists drawn,
    drawBars true fullScale 640 100 = Some drawn
    /\ List.length drawn = 512%nat
    /\ Forall (fun bar =>
                 (0 <= rh bar.1 <= 100)%Q /\ (0 <= ry bar.1 <= 100)%Q
                 /\ (1 # 2 <= rw bar.1)%Q /\ (0 <= rx bar.1 <= 640)%Q) drawn.
Proof.
  apply (bars_stay_on_the_canvas fullScale 640 100).
  - apply Forall_replicate. lia.
  - discriminate.
  - discriminate.
Defined.

(** ** The data URL *)

Section DataUrl.

Lemma split_comma_field s : exists field fields, split_comma s = field :: fields.
Proof.
  induction s as [|c s (field & fields & IH)]; [by eexists _, _|].
  cbn [split_comma]. destruct (Ascii.eqb c comma); [by eexists _, _|].
  rewrite IH. by eexists _, _.
Qed.

Lemma split_comma_free s : commaFree s = true -> split_comma s = [s].
Proof.
  induction s as [|c s IH]; [done|]. cbn [commaFree split_comma].
  destruct (Ascii.eqb c comma); [done|]. cbn [negb andb]. intros Hs. by rewrite IH.
Qed.

Lemma split_comma_app h rest :
  commaFree h = true ->
  split_comma (h +:+ String comma rest) = h :: split_comma rest.
Proof.
  induction h as [|c h IH]; [done|]. intros Hh.
  cbn [commaFree] in Hh. apply andb_prop in Hh as [Hc Hh]. apply negb_true_iff in Hc.
  change (String c h +:+ String comma rest) with (String c (h +:+ String comma rest)).
  cbn [split_comma]. by rewrite Hc, IH.
Qed.

End DataUrl.

(** X16.  fileToBase64 returns what stands between the first comma of the
    data URL and the next one: the whole payload when, as for base64, it
    has no comma of its own; and [undefined] when the URL has no comma. *)
Theorem fileToBase64_payload (header payload : string) :
  commaFree header = true ->
  commaFree payload = true ->
  fileToBase64 (header +:+ String comma payload) = Some payload
  /\ (forall rest,
        fileToBase64 (header +:+ String comma (payload +:+ String comma rest)) = Some payload)
  /\ fileToBase64 header = None.
Proof.
  intros Hh Hp. unfold fileToBase64. split; [|split].
  - by rewrite split_comma_app, split_comma_free.
  - intros rest. by rewrite !split_comma_app.
  - by rewrite split_comma_free.
Qed.

Lemma fileToBase64_payload_witness :
  fileToBase64 ("data:audio/wav;base64" +:+ String comma "UklGRg==") = Some "UklGRg=="
  /\ (forall rest,
        fileToBase64 ("data:audio/wav;base64" +:+ String comma ("UklGRg==" +:+ String comma rest))
        = Some "UklGRg==")
  /\ fileToBase64 "data:audio/wav;base64" = None.
Proof.
  apply (fileToBase64_payload "data:audio/wav;base64" "UklGRg=="); reflexivity.
Defined.

(** ** The visualizer of a track and the router *)

(** X17.  A media element can be tapped once, by whoever comes first.
    After AudioVisualizer.connect has tapped an element, connectElement on
    the router only disconnects and leaves it idle; after the router has
    tapped it, AudioVisualizer.connect attaches nothing.  A visualizer that
    does tap an element keeps every connection it had: it never
    disconnects. *)
Theorem element_is_tapped_once (el : nat) (v : AudioVisualizer) (tapped : gset nat)
    (g : UnifiedAudioGraph) :
  (tappedElements g = (visualizerConnect el v tapped).2 ->
   connectElement el g = disconnect (resume g) /\ idle (connectElement el g))
  /\ (let v' := (visualizerConnect el v (tappedElements (connectElement el g))).1 in
      vSource v' = vSource v /\ vConnections v' = vConnections v)
  /\ vConnections v ⊆ vConnections (visualizerConnect el v tapped).1.
Proof.
  split; [|split].
  - intros Hshared.
    assert (Hin : el ∈ tappedElements g).
    { rewrite Hshared. unfold visualizerConnect. case_decide; [done|].
      cbn. by apply elem_of_union_r, elem_of_singleton. }
    rewrite connectElement_tapped by done. split; [done|apply disconnect_idle].
  - cbn. unfold visualizerConnect.
    case_decide as Hin; [done|]. destruct Hin. apply connectElement_taps.
  - unfold visualizerConnect. case_decide; [done|]. cbn. unfold connectNode.
    etrans; [|apply union_subseteq_l]. apply union_subseteq_l.
Qed.
